(** * Wire-primitive encoders of the Minecraft server: model and properties

    A shallow embedding of [src/encoders.py] and [src/data_types.py].

    - Python [int] is [Z]; the bit operators [&], [|], [~], [<<], [>>] are
      [Z.land], [Z.lor], [Z.lnot], [Z.shiftl], [Z.shiftr], which agree with
      Python on negative operands (infinite two's complement).
    - Python [bytes] is [list byte]; [str] is the list of its code points.
    - A call either returns, raises, or (for the [while] loops, which are
      run with fuel) has not finished yet: type [outcome].

    The encoders that only return [NotImplemented] (text component, entity
    metadata, slot) are left out; the JSON text encoder is modelled over
    [json.loads] and [json.dumps] taken as parameters. *)

From Stdlib Require Import ZArith List Lia Bool String Ascii.
From Stdlib Require Import Strings.Byte.
Import ListNotations.
Local Open Scope Z_scope.
Local Open Scope list_scope.

Set Implicit Arguments.

(** ** Exceptions and outcomes *)

(** The exceptions the encoders can raise.  [ValueError] carries the text of
    the message as written in the source, with the [{...}] fields of the
    f-string left as they are.  [OverflowError] is Python's built-in one,
    raised by [int.to_bytes]. *)
Inductive exception : Type :=
| ValueError (msg : string)
| OverflowError (msg : string)
| IndexError (msg : string)
| StructError (msg : string)
| UnicodeEncodeError.

Inductive outcome (A : Type) : Type :=
| Ok (a : A)
| Raise (e : exception)
| OutOfFuel.

Arguments Ok {A} a.
Arguments Raise {A} e.
Arguments OutOfFuel {A}.

Definition bind {A B : Type} (m : outcome A) (k : A -> outcome B) : outcome B :=
  match m with
  | Ok a => k a
  | Raise e => Raise e
  | OutOfFuel => OutOfFuel
  end.

Notation "x <- m ;; k" := (bind m (fun x => k))
  (at level 61, m at next level, right associativity).

(** ** Bytes, integers and slices *)

Definition bytes : Type := list byte.

Definition byte_val (b : byte) : Z := Z.of_N (Byte.to_N b).

Definition byte_of_Z (z : Z) : byte :=
  match Byte.of_N (Z.to_N (z mod 256)) with
  | Some b => b
  | None => x00
  end.

(** A bytes literal, [b"\x80\x01"] is [bytes_of [0x80; 0x01]]. *)
Definition bytes_of (l : list Z) : bytes := map byte_of_Z l.

(** Python's [l[start:stop]]; [None] is an omitted bound. *)
Definition slice_index (len i : Z) : Z :=
  if i <? 0 then Z.max 0 (len + i) else Z.min i len.

Definition slice {A : Type} (l : list A) (start stop : option Z) : list A :=
  let len := Z.of_nat (List.length l) in
  let lo := match start with Some i => slice_index len i | None => 0 end in
  let hi := match stop with Some j => slice_index len j | None => len end in
  firstn (Z.to_nat (hi - lo)) (skipn (Z.to_nat lo) l).

(** [int.from_bytes(data, byteorder="big", signed=...)]; big-endian is also
    the default byte order. *)
Definition unsigned_from_bytes (data : bytes) : Z :=
  fold_left (fun acc b => acc * 256 + byte_val b) data 0.

Definition int_from_bytes (data : bytes) (signed : bool) : Z :=
  let u := unsigned_from_bytes data in
  let bits := 8 * Z.of_nat (List.length data) in
  if signed && (0 <? bits) && (2 ^ (bits - 1) <=? u) then u - 2 ^ bits else u.

(** [value.to_bytes(length, byteorder="big", signed=...)]. *)
Fixpoint big_endian (length : nat) (u : Z) : bytes :=
  match length with
  | O => []
  | S n => big_endian n (u / 256) ++ [byte_of_Z u]
  end.

Definition int_to_bytes (v : Z) (length : nat) (signed : bool) : outcome bytes :=
  let bits := 8 * Z.of_nat length in
  if signed then
    if (- 2 ^ bits <=? 2 * v) && (2 * v <? 2 ^ bits)
    then Ok (big_endian length (v mod 2 ^ bits))
    else Raise (OverflowError "int too big to convert")
  else if v <? 0 then Raise (OverflowError "can't convert negative int to unsigned")
  else if v <? 2 ^ bits then Ok (big_endian length v)
  else Raise (OverflowError "int too big to convert").

(** ** The encoder contract *)

Record EncoderParseResult (T : Type) : Type := mkResult {
  value : T;
  size : Z
}.

Arguments mkResult {T} value size.

Class Encoder (T : Type) : Type := {
  enc_parse : bytes -> outcome (EncoderParseResult T);
  enc_serialize : T -> outcome bytes
}.

(** ** Fixed-width encoders *)

Module BooleanEncoder.

Definition parse (data : bytes) : outcome (EncoderParseResult bool) :=
  match data with
  | [] => Raise (IndexError "index out of range")
  | b :: _ => Ok (mkResult (negb (byte_val b =? 0)) 1)
  end.

Definition serialize (value : bool) : outcome bytes :=
  int_to_bytes (if value then 1 else 0) 1 false.

End BooleanEncoder.

Module ByteEncoder.

Definition parse (data : bytes) : outcome (EncoderParseResult Z) :=
  Ok (mkResult (int_from_bytes (slice data None (Some 1)) true) 1).

Definition serialize (value : Z) : outcome bytes :=
  if negb ((-128 <=? value) && (value <=? 127))
  then Raise (ValueError "ByteEncoder: Serialization error: {value} is not in range [-128, 127]")
  else int_to_bytes value 1 true.

End ByteEncoder.

Module UnsignedByteEncoder.

Definition parse (data : bytes) : outcome (EncoderParseResult Z) :=
  Ok (mkResult (int_from_bytes (slice data None (Some 1)) false) 1).

Definition serialize (value : Z) : outcome bytes :=
  if negb ((0 <=? value) && (value <=? 255))
  then Raise (ValueError "UnsignedByteEncoder: Serialization Error: {value} is not in range [0, 255]")
  else int_to_bytes value 1 false.

End UnsignedByteEncoder.

Module ShortEncoder.

Definition parse (data : bytes) : outcome (EncoderParseResult Z) :=
  Ok (mkResult (int_from_bytes (slice data None (Some 2)) true) 2).

Definition serialize (value : Z) : outcome bytes :=
  if negb ((-32768 <=? value) && (value <=? 23767))
  then Raise (ValueError "ShortEncoder: Serialization error: {value} is not in range [-32768, 32767]")
  else int_to_bytes value 2 true.

End ShortEncoder.

Module UnsignedShortEncoder.

Definition parse (data : bytes) : outcome (EncoderParseResult Z) :=
  Ok (mkResult (int_from_bytes (slice data None (Some 2)) false) 2).

Definition serialize (value : Z) : outcome bytes :=
  if negb ((0 <=? value) && (value <=? 65535))
  then Raise (ValueError "UnsignedShortEncoder: Serialization error {value} is not in range [0, 65535]")
  else int_to_bytes value 2 false.

End UnsignedShortEncoder.

Module IntEncoder.

Definition parse (data : bytes) : outcome (EncoderParseResult Z) :=
  Ok (mkResult (int_from_bytes (slice data None (Some 4)) true) 4).

Definition serialize (value : Z) : outcome bytes :=
  if negb ((-2147483648 <=? value) && (value <=? 2147483647))
  then Raise (ValueError "IntEncoder: Serialization error: {value} is not in range [-2147483648, 2147483647]")
  else int_to_bytes value 4 true.

End IntEncoder.

Module LongEncoder.

Definition parse (data : bytes) : outcome (EncoderParseResult Z) :=
  Ok (mkResult (int_from_bytes (slice data None (Some 8)) true) 8).

Definition serialize (value : Z) : outcome bytes :=
  if negb ((-9223372036854775808 <=? value) && (value <=? 9223372036854775807))
  then Raise (ValueError "LongEncoder: Serialization error: {value} is not in range [-9223372036854775808, 9223372036854775807]")
  else int_to_bytes value 8 true.

End LongEncoder.

(** [struct.unpack(">f", data)] and [struct.unpack(">d", data)] demand a
    buffer of exactly 4 (8) bytes.  Floating-point arithmetic is not
    modelled: a float is represented by the IEEE-754 bit pattern that the
    bytes hold, and only values that came off the wire are considered, so
    that [struct.pack] writes the pattern back. *)
Definition struct_unpack (width : nat) (data : bytes) : outcome Z :=
  if Nat.eqb (List.length data) width
  then Ok (unsigned_from_bytes data)
  else Raise (StructError "unpack requires a buffer of {width} bytes").

Definition struct_pack (width : nat) (pattern : Z) : outcome bytes :=
  Ok (big_endian width pattern).

Module FloatEncoder.

Definition parse (data : bytes) : outcome (EncoderParseResult Z) :=
  v <- struct_unpack 4 data ;;
  Ok (mkResult v 4).

Definition serialize (value : Z) : outcome bytes :=
  struct_pack 4 value.

End FloatEncoder.

Module DoubleEncoder.

Definition parse (data : bytes) : outcome (EncoderParseResult Z) :=
  v <- struct_unpack 8 data ;;
  Ok (mkResult v 8).

Definition serialize (value : Z) : outcome bytes :=
  struct_pack 8 value.

End DoubleEncoder.

(** ** VarInt and VarLong *)

Module VarIntEncoder.

Definition SEGMENT_BITS : Z := 0x7f.
Definition CONTINUE_BIT : Z := 0x80.

(** The [while True] loop of [parse], one unit of fuel per iteration. *)
Fixpoint parse_loop (fuel : nat) (data : bytes) (value position size : Z)
    : outcome (EncoderParseResult Z) :=
  match fuel with
  | O => OutOfFuel
  | S fuel =>
    r <- ByteEncoder.parse (slice data (Some size) None) ;;
    let 'mkResult current_byte _ := r in
    let value := Z.lor value (Z.shiftl (Z.land current_byte SEGMENT_BITS) position) in
    if Z.land current_byte CONTINUE_BIT =? 0
    then Ok (mkResult value size)
    else
      let size := size + 1 in
      let position := position + 7 in
      if position >=? 32
      then Raise (ValueError "VarIntEncoder: Parsing error: VarInt is too big")
      else parse_loop fuel data value position size
  end.

(** [position] grows by 7 per iteration and the loop raises at 32: five
    iterations always suffice (lemma [VarInt_parse_loop_fuel]). *)
Definition parse (data : bytes) : outcome (EncoderParseResult Z) :=
  parse_loop 5 data 0 0 0.

Fixpoint serialize_loop (fuel : nat) (value : Z) (data : bytes) : outcome bytes :=
  match fuel with
  | O => OutOfFuel
  | S fuel =>
    if negb (Z.land value (Z.lnot SEGMENT_BITS) =? 0)
    then
      b <- ByteEncoder.serialize (Z.lor (Z.land value SEGMENT_BITS) CONTINUE_BIT) ;;
      serialize_loop fuel (Z.shiftr (value mod 0x10000000) 7) (data ++ b)
    else
      b <- ByteEncoder.serialize value ;;
      Ok (data ++ b)
  end.

(** Any positive amount of fuel gives the same outcome (lemma
    [VarInt_serialize_loop_fuel]). *)
Definition serialize (value : Z) : outcome bytes :=
  serialize_loop 5 value [].

End VarIntEncoder.

Module VarLongEncoder.

Definition SEGMENT_BITS : Z := 0x7f.
Definition CONTINUE_BIT : Z := 0x80.

Fixpoint parse_loop (fuel : nat) (data : bytes) (value position size : Z)
    : outcome (EncoderParseResult Z) :=
  match fuel with
  | O => OutOfFuel
  | S fuel =>
    r <- ByteEncoder.parse (slice data (Some size) None) ;;
    let 'mkResult current_byte _ := r in
    let value := Z.lor value (Z.shiftl (Z.land current_byte SEGMENT_BITS) position) in
    if Z.land current_byte CONTINUE_BIT =? 0
    then Ok (mkResult value size)
    else
      let size := size + 1 in
      let position := position + 7 in
      if position >=? 64
      then Raise (ValueError "VarLongEncoder: Parsing error: VarLong is too big")
      else parse_loop fuel data value position size
  end.

(** Ten iterations always suffice (lemma [VarLong_parse_loop_fuel]). *)
Definition parse (data : bytes) : outcome (EncoderParseResult Z) :=
  parse_loop 10 data 0 0 0.

Fixpoint serialize_loop (fuel : nat) (value : Z) (data : bytes) : outcome bytes :=
  match fuel with
  | O => OutOfFuel
  | S fuel =>
    if negb (Z.land value (Z.lnot SEGMENT_BITS) =? 0)
    then
      b <- ByteEncoder.serialize (Z.lor (Z.land value SEGMENT_BITS) CONTINUE_BIT) ;;
      serialize_loop fuel (Z.shiftr (value mod 0x10000000000000000) 7) (data ++ b)
    else
      b <- ByteEncoder.serialize value ;;
      Ok (data ++ b)
  end.

(** Any positive amount of fuel gives the same outcome (lemma
    [VarLong_serialize_loop_fuel]). *)
Definition serialize (value : Z) : outcome bytes :=
  serialize_loop 10 value [].

End VarLongEncoder.

(** ** Strings and UTF-8 *)

(** A Python [str]: the list of its code points. *)
Definition str : Type := list Z.

Definition ord (a : ascii) : Z := Z.of_N (N_of_ascii a).

(** A string literal of the source as a [str]. *)
Definition str_of (s : string) : str := map ord (list_ascii_of_string s).

Definition between (lo hi c : Z) : bool := (lo <=? c) && (c <=? hi).

(** [s.encode("utf-8")], strict: a surrogate cannot be encoded. *)
Definition utf8_encode_char (c : Z) : outcome bytes :=
  if c <? 0x80 then Ok [byte_of_Z c]
  else if c <? 0x800 then
    Ok [byte_of_Z (Z.lor 0xC0 (Z.shiftr c 6));
        byte_of_Z (Z.lor 0x80 (Z.land c 0x3F))]
  else if c <? 0x10000 then
    if between 0xD800 0xDFFF c then Raise UnicodeEncodeError
    else
      Ok [byte_of_Z (Z.lor 0xE0 (Z.shiftr c 12));
          byte_of_Z (Z.lor 0x80 (Z.land (Z.shiftr c 6) 0x3F));
          byte_of_Z (Z.lor 0x80 (Z.land c 0x3F))]
  else
    Ok [byte_of_Z (Z.lor 0xF0 (Z.shiftr c 18));
        byte_of_Z (Z.lor 0x80 (Z.land (Z.shiftr c 12) 0x3F));
        byte_of_Z (Z.lor 0x80 (Z.land (Z.shiftr c 6) 0x3F));
        byte_of_Z (Z.lor 0x80 (Z.land c 0x3F))].

Fixpoint utf8_encode (s : str) : outcome bytes :=
  match s with
  | [] => Ok []
  | c :: s' =>
    b <- utf8_encode_char c ;;
    bs <- utf8_encode s' ;;
    Ok (b ++ bs)
  end.

(** [data.decode("utf-8")], strict; [None] is [UnicodeDecodeError]. *)
Fixpoint utf8_decode (data : bytes) : option str :=
  match data with
  | [] => Some []
  | b0 :: rest =>
    let c0 := byte_val b0 in
    if c0 <? 0x80 then option_map (cons c0) (utf8_decode rest)
    else if between 0xC2 0xDF c0 then
      match rest with
      | b1 :: rest =>
        let c1 := byte_val b1 in
        if between 0x80 0xBF c1
        then option_map
               (cons (Z.lor (Z.shiftl (Z.land c0 0x1F) 6) (Z.land c1 0x3F)))
               (utf8_decode rest)
        else None
      | _ => None
      end
    else if between 0xE0 0xEF c0 then
      match rest with
      | b1 :: b2 :: rest =>
        let c1 := byte_val b1 in
        let c2 := byte_val b2 in
        let lo := if c0 =? 0xE0 then 0xA0 else 0x80 in
        let hi := if c0 =? 0xED then 0x9F else 0xBF in
        if between lo hi c1 && between 0x80 0xBF c2
        then option_map
               (cons (Z.lor (Z.shiftl (Z.land c0 0x0F) 12)
                        (Z.lor (Z.shiftl (Z.land c1 0x3F) 6) (Z.land c2 0x3F))))
               (utf8_decode rest)
        else None
      | _ => None
      end
    else if between 0xF0 0xF4 c0 then
      match rest with
      | b1 :: b2 :: b3 :: rest =>
        let c1 := byte_val b1 in
        let c2 := byte_val b2 in
        let c3 := byte_val b3 in
        let lo := if c0 =? 0xF0 then 0x90 else 0x80 in
        let hi := if c0 =? 0xF4 then 0x8F else 0xBF in
        if between lo hi c1 && between 0x80 0xBF c2 && between 0x80 0xBF c3
        then option_map
               (cons (Z.lor (Z.shiftl (Z.land c0 0x07) 18)
                        (Z.lor (Z.shiftl (Z.land c1 0x3F) 12)
                           (Z.lor (Z.shiftl (Z.land c2 0x3F) 6) (Z.land c3 0x3F)))))
               (utf8_decode rest)
        else None
      | _ => None
      end
    else None
  end.

Module StringEncoder.

(** The [for c_len in range(1, 4)] loop with its [try]: the first slice
    that decodes is appended and [i] advances; if none does, nothing
    changes. *)
Fixpoint for_c_len (c_lens : list Z) (data : bytes) (value : str) (i : Z)
    : str * Z :=
  match c_lens with
  | [] => (value, i)
  | c_len :: c_lens =>
    match utf8_decode (slice data (Some i) (Some (i + c_len))) with
    | None => for_c_len c_lens data value i
    | Some c => (value ++ c, i + c_len)
    end
  end.

(** The [while len(value) < length.value] loop.  It does not always end:
    [fuel] bounds the number of times its condition is evaluated. *)
Fixpoint parse_loop (fuel : nat) (data : bytes) (length_value : Z)
    (value : str) (i : Z) : outcome str :=
  match fuel with
  | O => OutOfFuel
  | S fuel =>
    if Z.of_nat (List.length value) <? length_value
    then
      let '(value, i) := for_c_len [1; 2; 3] data value i in
      parse_loop fuel data length_value value i
    else Ok value
  end.

Definition parse (fuel : nat) (data : bytes) : outcome (EncoderParseResult str) :=
  length <- VarIntEncoder.parse data ;;
  if negb ((0 <=? value length) && (value length <=? 32767))
  then Raise (ValueError "StringEncoder: Parsing error: Invalid length {length.value}")
  else
    v <- parse_loop fuel data (value length) [] 0 ;;
    encoded <- utf8_encode v ;;
    Ok (mkResult v (size length + Z.of_nat (List.length encoded))).

Definition serialize (value : str) : outcome bytes :=
  let length := Z.of_nat (List.length value) in
  if negb ((1 <=? length) && (length <=? 32767))
  then Raise (ValueError "StringEncoder: Serialization error: Invalid string length {length}")
  else
    prefix <- VarIntEncoder.serialize length ;;
    encoded <- utf8_encode value ;;
    Ok (prefix ++ encoded).

End StringEncoder.

(** ** Identifiers *)

Record Identifier : Type := mkIdentifier {
  namespace : str;
  name : str
}.

(** [s.split(sep)] for a one-character separator. *)
Fixpoint split (sep : Z) (s : str) : list str :=
  match s with
  | [] => [[]]
  | c :: s' =>
    if c =? sep then [] :: split sep s'
    else
      match split sep s' with
      | h :: t => (c :: h) :: t
      | [] => [[c]]
      end
  end.

(** The longest prefix of [s] inside a character class, and the rest. *)
Fixpoint span (class : Z -> bool) (s : str) : str * str :=
  match s with
  | [] => ([], [])
  | c :: s' =>
    if class c then let '(p, r) := span class s' in (c :: p, r)
    else ([], s)
  end.

Module IdentifierEncoder.

(** The class [[a-z0-9_\-.]] of the namespace and [[a-z0-9_\-./]] of the
    name. *)
Definition namespace_class (c : Z) : bool :=
  between (ord "a") (ord "z") c || between (ord "0") (ord "9") c
  || (c =? ord "_") || (c =? ord "-") || (c =? ord ".").

Definition name_class (c : Z) : bool :=
  namespace_class c || (c =? ord "/").

(** [re.match(r"^[a-z0-9_\-.]+:[a-z0-9_\-./]+$", s) is not None].  Neither
    class holds [":"] or a newline, so the greedy runs never have to be
    given back and the match is decided by two longest prefixes; [$] also
    matches just before a final newline. *)
Definition re_match (s : str) : bool :=
  let '(ns, rest) := span namespace_class s in
  match ns, rest with
  | _ :: _, c :: rest =>
    (c =? ord ":") &&
    let '(nm, tail) := span name_class rest in
    match nm, tail with
    | _ :: _, [] => true
    | _ :: _, [nl] => nl =? 10
    | _, _ => false
    end
  | _, _ => false
  end.

Definition parse (fuel : nat) (data : bytes)
    : outcome (EncoderParseResult Identifier) :=
  string <- StringEncoder.parse fuel data ;;
  let string :=
    if negb (existsb (Z.eqb (ord ":")) (value string))
    then mkResult (str_of "minecraft:" ++ value string) (size string + 10)
    else string in
  if negb (re_match (value string))
  then Raise (ValueError "IdentifierEncoder: Parsing error: '{string.value}' is not a valid identifier")
  else
    match split (ord ":") (value string) with
    | [namespace; name] => Ok (mkResult (mkIdentifier namespace name) (size string))
    | _ => Raise (ValueError "wrong number of values to unpack")
    end.

Definition serialize (value : Identifier) : outcome bytes :=
  StringEncoder.serialize (namespace value ++ [ord ":"] ++ name value).

End IdentifierEncoder.

(** ** Positions *)

Record Position : Type := mkPosition {
  x : Z;
  y : Z;
  z : Z
}.

Module PositionEncoder.

Definition parse (data : bytes) : outcome (EncoderParseResult Position) :=
  Ok (mkResult
        (mkPosition
           (Z.land (int_from_bytes (slice data None (Some 4)) true) 0xffffffc0)
           (Z.land (int_from_bytes (slice data (Some 3) (Some 7)) true) 0xffffff0)
           (Z.land (int_from_bytes (slice data (Some 6) (Some 8)) true) 0xfff))
        8).

Definition serialize (value : Position) : outcome bytes :=
  int_to_bytes (Z.lor (Z.lor (Z.shiftl (x value) 38) (Z.shiftl (y value) 12)) (z value))
    8 true.

End PositionEncoder.

Module AngleEncoder.

Definition parse (data : bytes) : outcome (EncoderParseResult Z) :=
  UnsignedByteEncoder.parse data.

Definition serialize (value : Z) : outcome bytes :=
  UnsignedByteEncoder.serialize value.

End AngleEncoder.

(** ** Instances of the contract

    [StringEncoder] and [IdentifierEncoder] take the fuel of the string
    loop as a parameter. *)

Definition Boolean_Encoder : Encoder bool :=
  {| enc_parse := BooleanEncoder.parse;
     enc_serialize := BooleanEncoder.serialize |}.

Definition Position_Encoder : Encoder Position :=
  {| enc_parse := PositionEncoder.parse;
     enc_serialize := PositionEncoder.serialize |}.

Definition Float_Encoder : Encoder Z :=
  {| enc_parse := FloatEncoder.parse;
     enc_serialize := FloatEncoder.serialize |}.

Definition Double_Encoder : Encoder Z :=
  {| enc_parse := DoubleEncoder.parse;
     enc_serialize := DoubleEncoder.serialize |}.

Definition VarInt_Encoder : Encoder Z :=
  {| enc_parse := VarIntEncoder.parse;
     enc_serialize := VarIntEncoder.serialize |}.

Definition VarLong_Encoder : Encoder Z :=
  {| enc_parse := VarLongEncoder.parse;
     enc_serialize := VarLongEncoder.serialize |}.

Definition String_Encoder (fuel : nat) : Encoder str :=
  {| enc_parse := StringEncoder.parse fuel;
     enc_serialize := StringEncoder.serialize |}.

Definition Identifier_Encoder (fuel : nat) : Encoder Identifier :=
  {| enc_parse := IdentifierEncoder.parse fuel;
     enc_serialize := IdentifierEncoder.serialize |}.

(** The encoders of an integer read with [int.from_bytes] on a slice, as a
    table: parser, serializer, width in bytes, signedness and the bounds
    tested by [serialize]. *)
Inductive int_codec : Type :=
| Byte | UnsignedByte | Short | UnsignedShort | Int | Long.

Definition codec_parse (c : int_codec) : bytes -> outcome (EncoderParseResult Z) :=
  match c with
  | Byte => ByteEncoder.parse
  | UnsignedByte => UnsignedByteEncoder.parse
  | Short => ShortEncoder.parse
  | UnsignedShort => UnsignedShortEncoder.parse
  | Int => IntEncoder.parse
  | Long => LongEncoder.parse
  end.

Definition codec_serialize (c : int_codec) : Z -> outcome bytes :=
  match c with
  | Byte => ByteEncoder.serialize
  | UnsignedByte => UnsignedByteEncoder.serialize
  | Short => ShortEncoder.serialize
  | UnsignedShort => UnsignedShortEncoder.serialize
  | Int => IntEncoder.serialize
  | Long => LongEncoder.serialize
  end.

Definition codec_width (c : int_codec) : nat :=
  match c with
  | Byte | UnsignedByte => 1
  | Short | UnsignedShort => 2
  | Int => 4
  | Long => 8
  end.

Definition codec_signed (c : int_codec) : bool :=
  match c with
  | UnsignedByte | UnsignedShort => false
  | _ => true
  end.

(** The bounds the source code tests (for [Short], 23767). *)
Definition codec_low (c : int_codec) : Z :=
  match c with
  | Byte => -128
  | Short => -32768
  | Int => -2147483648
  | Long => -9223372036854775808
  | UnsignedByte | UnsignedShort => 0
  end.

Definition codec_high (c : int_codec) : Z :=
  match c with
  | Byte => 127
  | UnsignedByte => 255
  | Short => 23767
  | UnsignedShort => 65535
  | Int => 2147483647
  | Long => 9223372036854775807
  end.

Definition codec_Encoder (c : int_codec) : Encoder Z :=
  {| enc_parse := codec_parse c; enc_serialize := codec_serialize c |}.

(** What [serialize] emits for a value it accepts. *)
Definition codec_encoding (c : int_codec) (v : Z) : bytes :=
  big_endian (codec_width c) (v mod 2 ^ (8 * Z.of_nat (codec_width c))).

(** ** Vocabulary of the properties *)

(** The top bit of a byte on the wire. *)
Definition continuation_bit (b : byte) : bool := 128 <=? byte_val b.

(** The number of leading bytes that carry the continuation bit. *)
Fixpoint run (data : bytes) : nat :=
  match data with
  | [] => O
  | b :: rest => if continuation_bit b then S (run rest) else O
  end.

(** The number a sequence of 7-bit groups denotes, least significant group
    first, up to and including the first byte without continuation bit. *)
Fixpoint group_value (data : bytes) : Z :=
  match data with
  | [] => 0
  | b :: rest =>
    Z.lor (Z.land (byte_val b) 0x7f)
      (if continuation_bit b then Z.shiftl (group_value rest) 7 else 0)
  end.

(** A parser ignores what follows an encoding. *)
Definition ignores_trailing_bytes {T : Type} (E : Encoder T) : Prop :=
  forall (v : T) (data extra : bytes) (r : EncoderParseResult T),
    enc_serialize v = Ok data ->
    enc_parse data = Ok r ->
    enc_parse (data ++ extra) = Ok r.

(** The message of the [ValueError] each of these encoders raises. *)
Definition codec_message (c : int_codec) : string :=
  match c with
  | Byte => "ByteEncoder: Serialization error: {value} is not in range [-128, 127]"
  | UnsignedByte => "UnsignedByteEncoder: Serialization Error: {value} is not in range [0, 255]"
  | Short => "ShortEncoder: Serialization error: {value} is not in range [-32768, 32767]"
  | UnsignedShort => "UnsignedShortEncoder: Serialization error {value} is not in range [0, 65535]"
  | Int => "IntEncoder: Serialization error: {value} is not in range [-2147483648, 2147483647]"
  | Long => "LongEncoder: Serialization error: {value} is not in range [-9223372036854775808, 9223372036854775807]"
  end.

(** A byte, a character, below 128. *)
Definition ascii_byte (b : byte) : bool := byte_val b <? 128.

Definition ascii_char (c : Z) : bool := (0 <=? c) && (c <? 128).

(** ** JSON text

    [json.loads] and [json.dumps] are not part of the repository; the
    encoder is modelled over any pair of functions in their place (a
    [json.JSONDecodeError] is a [ValueError]). *)

Module JSONTextComponentEncoder.

Section Json.

Variable T : Type.
Variable json_loads : str -> outcome T.
Variable json_dumps : T -> outcome str.

Definition parse (fuel : nat) (data : bytes) : outcome (EncoderParseResult T) :=
  let size := Z.of_nat (List.length data) in
  if negb ((1 <=? size) && (size <=? 262144 * 3 + 3))
  then Raise (ValueError "JSONTextComponentEncoder: Parsing error: Expected [1, 262144 * 3 + 3] bytes, got {size}")
  else
    string <- StringEncoder.parse fuel data ;;
    let 'mkResult string_value string_size := string in
    v <- json_loads string_value ;;
    Ok (mkResult v string_size).

Definition serialize (value : T) : outcome bytes :=
  s <- json_dumps value ;;
  StringEncoder.serialize s.

End Json.

End JSONTextComponentEncoder.

(** ** Bytes and big-endian integers *)

Lemma byte_val_range (b : byte) : 0 <= byte_val b < 256.
Proof.
  unfold byte_val. pose proof (Byte.to_N_bounded b). lia.
Qed.

Lemma byte_val_of_Z (u : Z) : byte_val (byte_of_Z u) = u mod 256.
Proof.
  unfold byte_val, byte_of_Z.
  pose proof (Z.mod_pos_bound u 256 ltac:(lia)) as Hm.
  destruct (Byte.of_N (Z.to_N (u mod 256))) as [b|] eqn:E.
  - apply Byte.to_of_N in E. rewrite E. lia.
  - apply Byte.of_N_None_iff in E. lia.
Qed.

Lemma byte_of_Z_val (b : byte) : byte_of_Z (byte_val b) = b.
Proof.
  unfold byte_of_Z, byte_val.
  pose proof (Byte.to_N_bounded b).
  rewrite Z.mod_small by lia.
  rewrite N2Z.id, Byte.of_to_N. reflexivity.
Qed.

Lemma unsigned_from_bytes_snoc (data : bytes) (b : byte) :
  unsigned_from_bytes (data ++ [b]) = unsigned_from_bytes data * 256 + byte_val b.
Proof.
  unfold unsigned_from_bytes. rewrite fold_left_app. reflexivity.
Qed.

Lemma big_endian_length (n : nat) (u : Z) : List.length (big_endian n u) = n.
Proof.
  revert u. induction n as [|n IH]; intros u; simpl.
  - reflexivity.
  - rewrite length_app, IH. simpl. lia.
Qed.

Lemma unsigned_from_big_endian (n : nat) (u : Z) :
  unsigned_from_bytes (big_endian n u) = u mod 2 ^ (8 * Z.of_nat n).
Proof.
  revert u. induction n as [|n IH]; intros u.
  - simpl. rewrite Z.mod_1_r. reflexivity.
  - cbn [big_endian]. rewrite unsigned_from_bytes_snoc, IH, byte_val_of_Z.
    replace (8 * Z.of_nat (S n)) with (8 + 8 * Z.of_nat n) by lia.
    rewrite Z.pow_add_r by lia. change (2 ^ 8) with 256.
    rewrite (Z.rem_mul_r u 256 (2 ^ (8 * Z.of_nat n))) by lia.
    lia.
Qed.

(** ** Slices with bounds that are not negative *)

Lemma firstn_clamp {A : Type} (l : list A) (n : nat) :
  firstn (Nat.min n (List.length l)) l = firstn n l.
Proof.
  destruct (Nat.le_gt_cases n (List.length l)) as [H|H].
  - rewrite Nat.min_l by exact H. reflexivity.
  - rewrite Nat.min_r by lia. rewrite !firstn_all2 by lia. reflexivity.
Qed.

Lemma skipn_clamp {A : Type} (l : list A) (n : nat) :
  skipn (Nat.min n (List.length l)) l = skipn n l.
Proof.
  destruct (Nat.le_gt_cases n (List.length l)) as [H|H].
  - rewrite Nat.min_l by exact H. reflexivity.
  - rewrite Nat.min_r by lia. rewrite !skipn_all2 by lia. reflexivity.
Qed.

Lemma slice_index_nonneg (len i : Z) :
  0 <= len -> 0 <= i -> slice_index len i = Z.min i len.
Proof.
  intros Hl Hi. unfold slice_index.
  destruct (i <? 0) eqn:E; [apply Z.ltb_lt in E; lia | reflexivity].
Qed.

Lemma slice_between {A : Type} (l : list A) (a b : Z) :
  0 <= a <= b ->
  slice l (Some a) (Some b) = firstn (Z.to_nat (b - a)) (skipn (Z.to_nat a) l).
Proof.
  intros Hab. unfold slice.
  rewrite !slice_index_nonneg by lia.
  replace (Z.to_nat (Z.min a (Z.of_nat (List.length l))))
    with (Nat.min (Z.to_nat a) (List.length l)) by lia.
  rewrite skipn_clamp.
  rewrite <- (firstn_clamp (skipn (Z.to_nat a) l) (Z.to_nat (b - a))).
  f_equal. rewrite length_skipn. lia.
Qed.

Lemma slice_to {A : Type} (l : list A) (b : Z) :
  0 <= b -> slice l None (Some b) = firstn (Z.to_nat b) l.
Proof.
  intros Hb. unfold slice.
  rewrite slice_index_nonneg by lia. rewrite Z.sub_0_r. simpl skipn.
  replace (Z.to_nat (Z.min b (Z.of_nat (List.length l))))
    with (Nat.min (Z.to_nat b) (List.length l)) by lia.
  apply firstn_clamp.
Qed.

Lemma slice_from {A : Type} (l : list A) (a : Z) :
  0 <= a -> slice l (Some a) None = skipn (Z.to_nat a) l.
Proof.
  intros Ha. unfold slice.
  rewrite slice_index_nonneg by lia.
  replace (Z.to_nat (Z.min a (Z.of_nat (List.length l))))
    with (Nat.min (Z.to_nat a) (List.length l)) by lia.
  rewrite skipn_clamp.
  apply firstn_all2. rewrite length_skipn. lia.
Qed.

Lemma slice_to_short {A : Type} (l : list A) (b : Z) :
  Z.of_nat (List.length l) <= b -> slice l None (Some b) = l.
Proof.
  intros H. rewrite slice_to by lia. apply firstn_all2. lia.
Qed.

Lemma slice_to_app {A : Type} (l extra : list A) (b : Z) :
  b = Z.of_nat (List.length l) -> slice (l ++ extra) None (Some b) = l.
Proof.
  intros ->. rewrite slice_to by lia. rewrite Nat2Z.id.
  rewrite firstn_app, Nat.sub_diag, firstn_all. simpl. apply app_nil_r.
Qed.

(** ** Integers through [to_bytes] and [from_bytes] *)

Lemma int_from_big_endian_unsigned (n : nat) (v : Z) :
  0 <= v < 2 ^ (8 * Z.of_nat n) ->
  int_from_bytes (big_endian n v) false = v.
Proof.
  intros Hv. unfold int_from_bytes. simpl.
  rewrite unsigned_from_big_endian. apply Z.mod_small. exact Hv.
Qed.

Lemma int_from_big_endian_signed (n : nat) (v : Z) :
  (0 < n)%nat ->
  - 2 ^ (8 * Z.of_nat n - 1) <= v < 2 ^ (8 * Z.of_nat n - 1) ->
  int_from_bytes (big_endian n (v mod 2 ^ (8 * Z.of_nat n))) true = v.
Proof.
  intros Hn Hv. unfold int_from_bytes.
  rewrite unsigned_from_big_endian, big_endian_length.
  set (bits := 8 * Z.of_nat n) in *.
  assert (Hp : 2 ^ bits = 2 * 2 ^ (bits - 1)).
  { replace bits with (1 + (bits - 1)) at 1 by lia.
    rewrite Z.pow_add_r by lia. reflexivity. }
  assert (Hpos : 0 < 2 ^ (bits - 1)) by (apply Z.pow_pos_nonneg; lia).
  rewrite Z.mod_mod by lia.
  replace (0 <? bits) with true by (symmetry; apply Z.ltb_lt; lia).
  rewrite andb_true_r. cbn [andb].
  destruct (Z_lt_le_dec v 0) as [Hneg|Hnn].
  - assert (E : v mod 2 ^ bits = v + 2 ^ bits).
    { symmetry. apply (Z.mod_unique _ _ (-1)); lia. }
    rewrite E.
    replace (2 ^ (bits - 1) <=? v + 2 ^ bits) with true
      by (symmetry; apply Z.leb_le; lia).
    lia.
  - rewrite Z.mod_small by lia.
    replace (2 ^ (bits - 1) <=? v) with false
      by (symmetry; apply Z.leb_gt; lia).
    reflexivity.
Qed.

(** ** The fixed-width integer encoders *)

Lemma pow2_bits (n : nat) : 2 ^ (8 * Z.of_nat n) = 2 * 2 ^ (8 * Z.of_nat n - 1) \/ n = O.
Proof.
  destruct n as [|n]; [right; reflexivity | left].
  replace (8 * Z.of_nat (S n)) with (1 + (8 * Z.of_nat (S n) - 1)) at 1 by lia.
  rewrite Z.pow_add_r by lia. reflexivity.
Qed.

Lemma int_to_bytes_signed (v : Z) (n : nat) :
  - 2 ^ (8 * Z.of_nat n - 1) <= v < 2 ^ (8 * Z.of_nat n - 1) ->
  int_to_bytes v n true = Ok (big_endian n (v mod 2 ^ (8 * Z.of_nat n))).
Proof.
  intros Hv. unfold int_to_bytes.
  destruct (pow2_bits n) as [Hp| ->].
  - rewrite Hp.
    replace (- (2 * 2 ^ (8 * Z.of_nat n - 1)) <=? 2 * v) with true
      by (symmetry; apply Z.leb_le; lia).
    replace (2 * v <? 2 * 2 ^ (8 * Z.of_nat n - 1)) with true
      by (symmetry; apply Z.ltb_lt; lia).
    reflexivity.
  - simpl in Hv. change (2 ^ (-1)) with 0 in Hv. lia.
Qed.

Lemma int_to_bytes_unsigned (v : Z) (n : nat) :
  0 <= v < 2 ^ (8 * Z.of_nat n) ->
  int_to_bytes v n false = Ok (big_endian n v).
Proof.
  intros Hv. unfold int_to_bytes.
  replace (v <? 0) with false by (symmetry; apply Z.ltb_ge; lia).
  replace (v <? 2 ^ (8 * Z.of_nat n)) with true by (symmetry; apply Z.ltb_lt; lia).
  reflexivity.
Qed.

Lemma codec_serialize_accepts (c : int_codec) (v : Z) :
  codec_low c <= v <= codec_high c ->
  codec_serialize c v = Ok (codec_encoding c v).
Proof.
  intros Hv. unfold codec_encoding.
  destruct c; cbn [codec_low codec_high codec_serialize codec_width] in *;
    cbv [ByteEncoder.serialize UnsignedByteEncoder.serialize
         ShortEncoder.serialize UnsignedShortEncoder.serialize
         IntEncoder.serialize LongEncoder.serialize];
    match goal with
    | |- context [negb (andb (?a <=? v) (v <=? ?b))] =>
      replace (a <=? v) with true by (symmetry; apply Z.leb_le; lia);
      replace (v <=? b) with true by (symmetry; apply Z.leb_le; lia)
    end; cbn [andb negb].
  all: first
    [ apply int_to_bytes_signed; simpl; lia
    | rewrite Z.mod_small by (simpl; lia);
      apply int_to_bytes_unsigned; simpl; lia ].
Qed.

Lemma codec_serialize_rejects (c : int_codec) (v : Z) :
  v < codec_low c \/ codec_high c < v ->
  exists msg, codec_serialize c v = Raise (ValueError msg).
Proof.
  intros Hv.
  destruct c; cbn [codec_low codec_high codec_serialize] in *;
    cbv [ByteEncoder.serialize UnsignedByteEncoder.serialize
         ShortEncoder.serialize UnsignedShortEncoder.serialize
         IntEncoder.serialize LongEncoder.serialize];
    match goal with
    | |- context [negb (andb (?a <=? v) (v <=? ?b))] =>
      replace (negb (andb (a <=? v) (v <=? b))) with true
        by (symmetry; apply negb_true_iff, andb_false_iff;
            rewrite !Z.leb_gt; lia)
    end; eexists; reflexivity.
Qed.

Lemma codec_parse_eq (c : int_codec) (data : bytes) :
  codec_parse c data =
  Ok (mkResult
        (int_from_bytes (firstn (codec_width c) data) (codec_signed c))
        (Z.of_nat (codec_width c))).
Proof.
  destruct c; cbn [codec_parse codec_width codec_signed];
    cbv [ByteEncoder.parse UnsignedByteEncoder.parse ShortEncoder.parse
         UnsignedShortEncoder.parse IntEncoder.parse LongEncoder.parse];
    rewrite slice_to by lia; reflexivity.
Qed.

Lemma codec_roundtrip (c : int_codec) (v : Z) :
  codec_low c <= v <= codec_high c ->
  codec_serialize c v = Ok (codec_encoding c v) /\
  codec_parse c (codec_encoding c v) = Ok (mkResult v (Z.of_nat (codec_width c))).
Proof.
  intros Hv. split; [apply codec_serialize_accepts; exact Hv|].
  rewrite codec_parse_eq. unfold codec_encoding.
  rewrite firstn_all2 by (rewrite big_endian_length; lia).
  do 2 f_equal.
  destruct c; cbn [codec_low codec_high codec_width codec_signed] in *.
  all: first
    [ apply int_from_big_endian_signed; simpl; lia
    | rewrite Z.mod_small by (simpl; lia);
      apply int_from_big_endian_unsigned; simpl; lia ].
Qed.

Lemma codec_ignores_trailing_bytes (c : int_codec) :
  ignores_trailing_bytes (codec_Encoder c).
Proof.
  intros v data extra r Hs Hp. cbn [enc_parse enc_serialize codec_Encoder] in *.
  rewrite codec_parse_eq in *.
  assert (Hlen : List.length data = codec_width c).
  { destruct (Z_le_gt_dec (codec_low c) v) as [Hl|Hl];
      [destruct (Z_le_gt_dec v (codec_high c)) as [Hh|Hh]|].
    - rewrite codec_serialize_accepts in Hs by lia.
      injection Hs as <-. apply big_endian_length.
    - destruct (@codec_serialize_rejects c v) as [msg E]; [lia|congruence].
    - destruct (@codec_serialize_rejects c v) as [msg E]; [lia|congruence]. }
  rewrite <- Hp. do 3 f_equal.
  rewrite firstn_app, Hlen, Nat.sub_diag. simpl. rewrite app_nil_r.
  rewrite <- Hlen, !firstn_all. reflexivity.
Qed.

(** ** Reading one byte at an offset *)

Lemma signed_byte_segment (b : byte) :
  Z.land (int_from_bytes [b] true) 0x7f = Z.land (byte_val b) 0x7f.
Proof. destruct b; reflexivity. Qed.

Lemma signed_byte_continue (b : byte) :
  (Z.land (int_from_bytes [b] true) 0x80 =? 0) = negb (continuation_bit b).
Proof. destruct b; reflexivity. Qed.

Lemma byte_parse_at (data : bytes) (k : nat) :
  ByteEncoder.parse (slice data (Some (Z.of_nat k)) None) =
  Ok (mkResult (int_from_bytes (firstn 1 (skipn k data)) true) 1).
Proof.
  unfold ByteEncoder.parse.
  rewrite slice_from by lia. rewrite slice_to by lia.
  rewrite Nat2Z.id. reflexivity.
Qed.

Lemma skipn_cons_inv {A : Type} (l : list A) (k : nat) (a : A) (rest : list A) :
  skipn k l = a :: rest -> skipn (S k) l = rest.
Proof.
  revert l. induction k as [|k IH]; intros l H.
  - simpl in H. subst l. reflexivity.
  - destruct l as [|a' l]; [discriminate|]. simpl in H. simpl. apply IH, H.
Qed.

Lemma group_value_step (v g rest : Z) (j : nat) :
  Z.lor (Z.lor v (Z.shiftl g (7 * Z.of_nat j)))
        (Z.shiftl rest (7 * Z.of_nat (S j))) =
  Z.lor v (Z.shiftl (Z.lor g (Z.shiftl rest 7)) (7 * Z.of_nat j)).
Proof.
  rewrite Z.shiftl_lor, Z.shiftl_shiftl by lia.
  rewrite Z.lor_assoc. do 2 f_equal. lia.
Qed.

(** ** The loops of VarInt and VarLong [parse]

    From the state reached after [j] continuation bytes, with [d] more
    allowed before the limit, the loop raises exactly when the run of
    continuation bytes goes on for [d] bytes; otherwise it returns the
    groups read and, as size, the number of continuation bytes. *)

Ltac parse_loop_steps limit :=
  let d := fresh "d" in
  let IH := fresh "IH" in
  intros d; induction d as [|d IH]; intros fuel j data v Hj Hd Hf; [lia|];
  destruct fuel as [|fuel]; [lia|];
  cbn [VarIntEncoder.parse_loop VarLongEncoder.parse_loop];
  rewrite byte_parse_at; cbn [bind];
  destruct (skipn j data) as [|b rest] eqn:Hrest;
  [ cbn [run]; rewrite Nat.add_0_r; reflexivity |];
  cbn [firstn run group_value];
  unfold VarIntEncoder.SEGMENT_BITS, VarIntEncoder.CONTINUE_BIT,
         VarLongEncoder.SEGMENT_BITS, VarLongEncoder.CONTINUE_BIT;
  rewrite signed_byte_segment, signed_byte_continue;
  apply skipn_cons_inv in Hrest;
  destruct (continuation_bit b); cbn [negb];
  [ destruct d as [|d];
    [ replace j with (limit - 1)%nat by lia; reflexivity
    | replace (7 * Z.of_nat j + 7 >=? _) with false
        by (symmetry; rewrite Z.geb_leb; apply Z.leb_gt; lia);
      replace (Z.of_nat j + 1) with (Z.of_nat (S j)) by lia;
      replace (7 * Z.of_nat j + 7) with (7 * Z.of_nat (S j)) by lia;
      rewrite IH by lia; rewrite Hrest;
      change (S (S d) <=? S (run rest))%nat with (S d <=? run rest)%nat;
      destruct (S d <=? run rest)%nat; [reflexivity|];
      rewrite group_value_step;
      do 2 f_equal; lia ]
  | rewrite Z.lor_0_r, Nat.add_0_r; reflexivity ].

Lemma VarInt_parse_loop_run :
  forall (d fuel j : nat) (data : bytes) (v : Z),
    (j + d = 5)%nat -> (1 <= d)%nat -> (d <= fuel)%nat ->
    VarIntEncoder.parse_loop fuel data v (7 * Z.of_nat j) (Z.of_nat j) =
    if (d <=? run (skipn j data))%nat
    then Raise (ValueError "VarIntEncoder: Parsing error: VarInt is too big")
    else Ok (mkResult
               (Z.lor v (Z.shiftl (group_value (skipn j data)) (7 * Z.of_nat j)))
               (Z.of_nat (j + run (skipn j data)))).
Proof. parse_loop_steps 5%nat. Qed.

Lemma VarLong_parse_loop_run :
  forall (d fuel j : nat) (data : bytes) (v : Z),
    (j + d = 10)%nat -> (1 <= d)%nat -> (d <= fuel)%nat ->
    VarLongEncoder.parse_loop fuel data v (7 * Z.of_nat j) (Z.of_nat j) =
    if (d <=? run (skipn j data))%nat
    then Raise (ValueError "VarLongEncoder: Parsing error: VarLong is too big")
    else Ok (mkResult
               (Z.lor v (Z.shiftl (group_value (skipn j data)) (7 * Z.of_nat j)))
               (Z.of_nat (j + run (skipn j data)))).
Proof. parse_loop_steps 10%nat. Qed.

(** VarInt [parse] as a function of the run of continuation bytes: five
    units of fuel are enough, and more change nothing. *)
Lemma VarInt_parse_loop_fuel (fuel : nat) (data : bytes) :
  (5 <= fuel)%nat ->
  VarIntEncoder.parse_loop fuel data 0 0 0 =
  if (5 <=? run data)%nat
  then Raise (ValueError "VarIntEncoder: Parsing error: VarInt is too big")
  else Ok (mkResult (group_value data) (Z.of_nat (run data))).
Proof.
  intros Hf.
  pose proof (@VarInt_parse_loop_run 5 fuel 0 data 0) as H.
  cbn [skipn Nat.add Z.of_nat Z.mul] in H. rewrite Z.shiftl_0_r in H.
  apply H; lia.
Qed.

Lemma VarLong_parse_loop_fuel (fuel : nat) (data : bytes) :
  (10 <= fuel)%nat ->
  VarLongEncoder.parse_loop fuel data 0 0 0 =
  if (10 <=? run data)%nat
  then Raise (ValueError "VarLongEncoder: Parsing error: VarLong is too big")
  else Ok (mkResult (group_value data) (Z.of_nat (run data))).
Proof.
  intros Hf.
  pose proof (@VarLong_parse_loop_run 10 fuel 0 data 0) as H.
  cbn [skipn Nat.add Z.of_nat Z.mul] in H. rewrite Z.shiftl_0_r in H.
  apply H; lia.
Qed.

Lemma VarInt_parse_run (data : bytes) :
  VarIntEncoder.parse data =
  if (5 <=? run data)%nat
  then Raise (ValueError "VarIntEncoder: Parsing error: VarInt is too big")
  else Ok (mkResult (group_value data) (Z.of_nat (run data))).
Proof. apply VarInt_parse_loop_fuel. lia. Qed.

Lemma VarLong_parse_run (data : bytes) :
  VarLongEncoder.parse data =
  if (10 <=? run data)%nat
  then Raise (ValueError "VarLongEncoder: Parsing error: VarLong is too big")
  else Ok (mkResult (group_value data) (Z.of_nat (run data))).
Proof. apply VarLong_parse_loop_fuel. lia. Qed.

(** The bytes an accepted sequence occupies are the run of continuation
    bytes and the byte that ends it; the reported size is the run alone. *)
Lemma VarInt_parse_size (data : bytes) (r : EncoderParseResult Z) :
  VarIntEncoder.parse data = Ok r -> size r = Z.of_nat (run data).
Proof.
  rewrite VarInt_parse_run.
  destruct (5 <=? run data)%nat; [discriminate|].
  intros H. injection H as <-. reflexivity.
Qed.

Lemma VarLong_parse_size (data : bytes) (r : EncoderParseResult Z) :
  VarLongEncoder.parse data = Ok r -> size r = Z.of_nat (run data).
Proof.
  rewrite VarLong_parse_run.
  destruct (10 <=? run data)%nat; [discriminate|].
  intros H. injection H as <-. reflexivity.
Qed.

(** ** The loop of VarInt and VarLong [serialize] *)

Lemma high_bits_clear (v : Z) :
  Z.land v (Z.lnot 0x7f) = 0 <-> 0 <= v <= 127.
Proof.
  assert (E : Z.land v (Z.lnot 0x7f) = v / 128 * 128).
  { rewrite <- Z.ldiff_land. change 0x7f with (Z.ones 7).
    rewrite Z.ldiff_ones_r by lia.
    rewrite Z.shiftl_mul_pow2, Z.shiftr_div_pow2 by lia. reflexivity. }
  rewrite E.
  pose proof (Z.div_mod v 128 ltac:(lia)).
  pose proof (Z.mod_pos_bound v 128 ltac:(lia)).
  lia.
Qed.

Lemma continuation_byte_range (v : Z) :
  128 <= Z.lor (Z.land v 0x7f) 0x80 <= 255.
Proof.
  assert (Hd : Z.land (Z.land v 0x7f) 0x80 = 0).
  { rewrite <- Z.land_assoc. change (Z.land 0x7f 0x80) with 0. apply Z.land_0_r. }
  rewrite <- (Z.lxor_lor _ _ Hd), <- (Z.add_nocarry_lxor _ _ Hd).
  assert (E : Z.land v 0x7f = v mod 128).
  { change 0x7f with (Z.ones 7). rewrite Z.land_ones by lia. reflexivity. }
  rewrite E.
  pose proof (Z.mod_pos_bound v 128 ltac:(lia)). lia.
Qed.

Lemma Byte_serialize_rejects (v : Z) :
  v < -128 \/ 127 < v ->
  ByteEncoder.serialize v =
  Raise (ValueError "ByteEncoder: Serialization error: {value} is not in range [-128, 127]").
Proof.
  intros Hv. unfold ByteEncoder.serialize.
  replace (negb ((-128 <=? v) && (v <=? 127))) with true; [reflexivity|].
  symmetry. apply negb_true_iff, andb_false_iff. rewrite !Z.leb_gt. lia.
Qed.

Lemma Byte_serialize_segment (v : Z) :
  0 <= v <= 127 -> ByteEncoder.serialize v = Ok [byte_of_Z v].
Proof.
  intros Hv. unfold ByteEncoder.serialize.
  replace (-128 <=? v) with true by (symmetry; apply Z.leb_le; lia).
  replace (v <=? 127) with true by (symmetry; apply Z.leb_le; lia).
  cbn [andb negb]. rewrite int_to_bytes_signed by (simpl; lia).
  cbn [big_endian app]. rewrite Z.mod_small by (simpl; lia). reflexivity.
Qed.

Ltac serialize_loop_step v :=
  cbn [VarIntEncoder.serialize_loop VarLongEncoder.serialize_loop];
  unfold VarIntEncoder.SEGMENT_BITS, VarIntEncoder.CONTINUE_BIT,
         VarLongEncoder.SEGMENT_BITS, VarLongEncoder.CONTINUE_BIT;
  destruct (Z.land v (Z.lnot 0x7f) =? 0) eqn:E; cbn [negb];
  [ apply Z.eqb_eq, high_bits_clear in E;
    replace ((0 <=? v) && (v <=? 127)) with true
      by (symmetry; apply andb_true_iff; rewrite !Z.leb_le; lia);
    rewrite Byte_serialize_segment by lia; reflexivity
  | apply Z.eqb_neq in E; rewrite high_bits_clear in E;
    replace ((0 <=? v) && (v <=? 127)) with false
      by (symmetry; apply andb_false_iff; rewrite !Z.leb_gt; lia);
    rewrite Byte_serialize_rejects
      by (pose proof (continuation_byte_range v); lia);
    reflexivity ].

(** Whatever the fuel, the loop ends in its first iteration: it returns
    for a value of one group and raises, inside [ByteEncoder.serialize], as
    soon as a byte with the continuation bit has to be written. *)
Lemma VarInt_serialize_loop_fuel (fuel : nat) (v : Z) (data : bytes) :
  VarIntEncoder.serialize_loop (S fuel) v data =
  if (0 <=? v) && (v <=? 127)
  then Ok (data ++ [byte_of_Z v])
  else Raise (ValueError "ByteEncoder: Serialization error: {value} is not in range [-128, 127]").
Proof. serialize_loop_step v. Qed.

Lemma VarLong_serialize_loop_fuel (fuel : nat) (v : Z) (data : bytes) :
  VarLongEncoder.serialize_loop (S fuel) v data =
  if (0 <=? v) && (v <=? 127)
  then Ok (data ++ [byte_of_Z v])
  else Raise (ValueError "ByteEncoder: Serialization error: {value} is not in range [-128, 127]").
Proof. serialize_loop_step v. Qed.

Lemma VarInt_serialize_eq (v : Z) :
  VarIntEncoder.serialize v =
  if (0 <=? v) && (v <=? 127)
  then Ok [byte_of_Z v]
  else Raise (ValueError "ByteEncoder: Serialization error: {value} is not in range [-128, 127]").
Proof. apply (VarInt_serialize_loop_fuel 4 v []). Qed.

Lemma VarLong_serialize_eq (v : Z) :
  VarLongEncoder.serialize v =
  if (0 <=? v) && (v <=? 127)
  then Ok [byte_of_Z v]
  else Raise (ValueError "ByteEncoder: Serialization error: {value} is not in range [-128, 127]").
Proof. apply (VarLong_serialize_loop_fuel 9 v []). Qed.

(** ** Booleans, floats and positions *)

Lemma Boolean_roundtrip (b : bool) :
  exists data, BooleanEncoder.serialize b = Ok data /\
               BooleanEncoder.parse data = Ok (mkResult b 1).
Proof. destruct b; eexists; split; reflexivity. Qed.



Lemma Float_keeps_trailing_bytes : ~ ignores_trailing_bytes Float_Encoder.
Proof.
  intros H.
  specialize (H 0x3f800000 (bytes_of [0x3f; 0x80; 0; 0]) (bytes_of [0])
                (mkResult 0x3f800000 4) eq_refl eq_refl).
  discriminate H.
Qed.

Lemma Position_parse_size (data : bytes) :
  exists p, PositionEncoder.parse data = Ok (mkResult p 8).
Proof. eexists. reflexivity. Qed.

Lemma Position_roundtrip_origin :
  exists data, PositionEncoder.serialize (mkPosition 0 0 0) = Ok data /\
               PositionEncoder.parse data = Ok (mkResult (mkPosition 0 0 0) 8).
Proof. eexists. split; reflexivity. Qed.

(** ** The string loop and its fuel *)

(** A loop that has finished is not changed by more fuel. *)
Lemma String_parse_loop_more_fuel (fuel extra : nat) (data : bytes)
  (n : Z) (v : str) (i : Z) :
  StringEncoder.parse_loop fuel data n v i <> OutOfFuel ->
  StringEncoder.parse_loop (fuel + extra) data n v i =
  StringEncoder.parse_loop fuel data n v i.
Proof.
  revert v i. induction fuel as [|fuel IH]; intros v i H.
  - contradiction H. reflexivity.
  - cbn [Nat.add StringEncoder.parse_loop] in *.
    destruct (Z.of_nat (List.length v) <? n); [|reflexivity].
    destruct (StringEncoder.for_c_len [1; 2; 3] data v i) as [v' i'].
    apply IH, H.
Qed.

Lemma String_parse_more_fuel (fuel extra : nat) (data : bytes) :
  StringEncoder.parse fuel data <> OutOfFuel ->
  StringEncoder.parse (fuel + extra) data = StringEncoder.parse fuel data.
Proof.
  unfold StringEncoder.parse.
  destruct (VarIntEncoder.parse data) as [len|e|]; cbn [bind]; try reflexivity.
  destruct (negb _); [reflexivity|].
  intros H. rewrite String_parse_loop_more_fuel; [reflexivity|].
  intros E. apply H. rewrite E. reflexivity.
Qed.

Lemma Identifier_parse_more_fuel (fuel extra : nat) (data : bytes) :
  IdentifierEncoder.parse fuel data <> OutOfFuel ->
  IdentifierEncoder.parse (fuel + extra) data = IdentifierEncoder.parse fuel data.
Proof.
  unfold IdentifierEncoder.parse. intros H.
  rewrite String_parse_more_fuel; [reflexivity|].
  intros E. apply H. rewrite E. reflexivity.
Qed.

(** When the prefix byte is itself the first thing decoded, because the
    loop starts at index 0, the string of a one-character message is the
    character whose code is the length. *)
Lemma String_parse_reads_prefix (fuel : nat) (c : byte) :
  StringEncoder.parse (2 + fuel) (bytes_of [1] ++ [c]) = Ok (mkResult [1] 1).
Proof.
  unfold StringEncoder.parse. rewrite VarInt_parse_run.
  cbn [bytes_of map app run]. reflexivity.
Qed.

(** ** When the string loop does not end

    One pass of the [for] loop either appends exactly one character, or
    changes nothing (no slice decodes), or appends the empty string and
    moves [i] by one past the end of the data.  In the last two cases
    every later pass does the same. *)

Lemma skipn_nil_length {A : Type} (l : list A) (k : nat) :
  skipn k l = [] -> (List.length l <= k)%nat.
Proof.
  intros H. pose proof (length_skipn k l) as E. rewrite H in E. simpl in E. lia.
Qed.

Lemma slice_window (data : bytes) (i c : Z) :
  0 <= i -> 0 <= c ->
  slice data (Some i) (Some (i + c)) =
  firstn (Z.to_nat c) (skipn (Z.to_nat i) data).
Proof.
  intros Hi Hc. rewrite slice_between by lia. do 2 f_equal. lia.
Qed.

Lemma for_c_len_cases (data : bytes) (v : str) (i : Z) :
  0 <= i ->
  let '(v', i') := StringEncoder.for_c_len [1; 2; 3] data v i in
  (List.length v' = S (List.length v) /\ i <= i')
  \/ (v' = v /\ i' = i)
  \/ (v' = v /\ i' = i + 1 /\ Z.of_nat (List.length data) <= i).
Proof.
  intros Hi. cbn [StringEncoder.for_c_len].
  rewrite !slice_window by lia.
  change (Z.to_nat 1) with 1%nat. change (Z.to_nat 2) with 2%nat.
  change (Z.to_nat 3) with 3%nat.
  destruct (skipn (Z.to_nat i) data) as [|b0 [|b1 [|b2 t]]] eqn:Ht;
    cbn [firstn utf8_decode option_map].
  - right; right. apply skipn_nil_length in Ht.
    rewrite app_nil_r. repeat split; lia.
  - repeat match goal with
           | |- context [if ?b then _ else _] => destruct b
           end; cbn [option_map];
      first [ left; rewrite length_app; simpl; lia | right; left; split; reflexivity ].
  - repeat match goal with
           | |- context [if ?b then _ else _] => destruct b
           end; cbn [option_map];
      first [ left; rewrite length_app; simpl; lia | right; left; split; reflexivity ].
  - repeat match goal with
           | |- context [if ?b then _ else _] => destruct b
           end; cbn [option_map];
      first [ left; rewrite length_app; simpl; lia | right; left; split; reflexivity ].
Qed.

Lemma String_parse_loop_stuck (data : bytes) (n : Z) (v : str) (i : Z) :
  Z.of_nat (List.length v) < n ->
  StringEncoder.for_c_len [1; 2; 3] data v i = (v, i) ->
  forall fuel, StringEncoder.parse_loop fuel data n v i = OutOfFuel.
Proof.
  intros Hlt Hbody fuel. induction fuel as [|fuel IH]; [reflexivity|].
  cbn [StringEncoder.parse_loop].
  apply Z.ltb_lt in Hlt. rewrite Hlt, Hbody. exact IH.
Qed.

Lemma String_parse_loop_past_end (data : bytes) (n : Z) (v : str) :
  Z.of_nat (List.length v) < n ->
  forall fuel i, Z.of_nat (List.length data) <= i ->
    StringEncoder.parse_loop fuel data n v i = OutOfFuel.
Proof.
  intros Hlt fuel. induction fuel as [|fuel IH]; intros i Hi; [reflexivity|].
  cbn [StringEncoder.parse_loop StringEncoder.for_c_len].
  apply Z.ltb_lt in Hlt. rewrite Hlt.
  rewrite slice_window by lia.
  rewrite skipn_all2 by lia. cbn [firstn utf8_decode Z.to_nat].
  rewrite firstn_nil. cbn [utf8_decode]. rewrite app_nil_r.
  apply IH. lia.
Qed.

(** Fuel above the number of characters still to read decides the loop:
    if it runs out, so does any amount of fuel. *)
Lemma String_parse_loop_decided (fuel : nat) (data : bytes) (n : Z) :
  forall (v : str) (i : Z),
    0 <= i ->
    (Z.to_nat (n - Z.of_nat (List.length v)) < fuel)%nat ->
    StringEncoder.parse_loop fuel data n v i = OutOfFuel ->
    forall fuel', StringEncoder.parse_loop fuel' data n v i = OutOfFuel.
Proof.
  induction fuel as [|fuel IH]; intros v i Hi Hfuel Hout fuel'; [lia|].
  cbn [StringEncoder.parse_loop] in Hout.
  destruct (Z.of_nat (List.length v) <? n) eqn:Hlt; [|discriminate].
  apply Z.ltb_lt in Hlt.
  pose proof (for_c_len_cases data v Hi) as Hc.
  destruct (StringEncoder.for_c_len [1; 2; 3] data v i) as [v' i'] eqn:Hbody.
  destruct Hc as [[Hlen Hi'] | [[-> ->] | [-> [-> Hend]]]].
  - destruct fuel' as [|fuel']; [reflexivity|].
    cbn [StringEncoder.parse_loop].
    apply Z.ltb_lt in Hlt. rewrite Hlt, Hbody.
    apply (IH v' i'); [lia | lia | exact Hout].
  - apply String_parse_loop_stuck; assumption.
  - destruct fuel' as [|fuel']; [reflexivity|].
    cbn [StringEncoder.parse_loop].
    apply Z.ltb_lt in Hlt. rewrite Hlt, Hbody.
    apply Z.ltb_lt in Hlt.
    apply String_parse_loop_past_end; [exact Hlt | lia].
Qed.

Lemma utf8_encode_finished (s : str) : utf8_encode s <> OutOfFuel.
Proof.
  induction s as [|c s IH]; cbn [utf8_encode]; [discriminate|].
  unfold utf8_encode_char.
  repeat match goal with
         | |- context [if ?b then _ else _] => destruct b
         end; cbn [bind]; try discriminate;
    destruct (utf8_encode s); cbn [bind]; congruence.
Qed.

(** The declared length is at most 32767, so fuel above it decides
    [parse] on every buffer. *)
Lemma String_parse_decided (fuel0 : nat) (data : bytes) :
  32767 < Z.of_nat fuel0 ->
  StringEncoder.parse fuel0 data = OutOfFuel ->
  forall fuel, StringEncoder.parse fuel data = OutOfFuel.
Proof.
  unfold StringEncoder.parse. rewrite VarInt_parse_run.
  destruct (5 <=? run data)%nat; cbn [bind]; [discriminate|].
  cbn [value size].
  destruct ((0 <=? group_value data) && (group_value data <=? 32767)) eqn:Hr;
    cbn [negb]; [|discriminate].
  apply andb_true_iff in Hr. destruct Hr as [Hlo Hhi].
  apply Z.leb_le in Hlo, Hhi.
  intros Hfuel Hout fuel.
  assert (Hloop : StringEncoder.parse_loop fuel0 data (group_value data) [] 0 = OutOfFuel).
  { destruct (StringEncoder.parse_loop fuel0 data (group_value data) [] 0)
      as [s|e|] eqn:E; cbn [bind] in Hout; [|discriminate|reflexivity].
    pose proof (utf8_encode_finished s) as Hs.
    destruct (utf8_encode s); cbn [bind] in Hout; congruence. }
  rewrite (@String_parse_loop_decided fuel0 data (group_value data) [] 0);
    [reflexivity | lia | simpl; lia | exact Hloop].
Qed.

(** ** Identifiers: the grammar and the split *)

Lemma span_spec (class : Z -> bool) (s p r : str) :
  span class s = (p, r) -> s = p ++ r /\ forallb class p = true.
Proof.
  revert p r. induction s as [|c s IH]; intros p r H; cbn [span] in H.
  - injection H as <- <-. split; reflexivity.
  - destruct (class c) eqn:Hc.
    + destruct (span class s) as [p' r'] eqn:Hs.
      injection H as <- <-. destruct (IH p' r' eq_refl) as [-> Hp].
      split; [reflexivity|]. cbn [forallb]. rewrite Hc, Hp. reflexivity.
    + injection H as <- <-. split; reflexivity.
Qed.

Lemma split_no_separator (sep : Z) (s : str) :
  existsb (Z.eqb sep) s = false -> split sep s = [s].
Proof.
  induction s as [|c s IH]; intros H; [reflexivity|].
  cbn [existsb] in H. apply orb_false_iff in H. destruct H as [Hc Hs].
  cbn [split]. rewrite Z.eqb_sym, Hc, (IH Hs). reflexivity.
Qed.

Lemma split_after_class (class : Z -> bool) (sep : Z) (p r : str) :
  class sep = false -> forallb class p = true ->
  split sep (p ++ sep :: r) =
  match split sep r with
  | h :: t => p :: h :: t
  | [] => [p]
  end.
Proof.
  intros Hsep. induction p as [|c p IH]; intros Hp.
  - cbn [app split]. rewrite Z.eqb_refl. destruct (split sep r); reflexivity.
  - cbn [forallb] in Hp. apply andb_true_iff in Hp. destruct Hp as [Hc Hp].
    cbn [app split].
    destruct (Z.eqb_spec c sep) as [->|_]; [congruence|].
    rewrite (IH Hp). destruct (split sep r); reflexivity.
Qed.

Lemma class_excludes (class : Z -> bool) (sep : Z) (s : str) :
  class sep = false -> forallb class s = true -> existsb (Z.eqb sep) s = false.
Proof.
  intros Hsep. induction s as [|c s IH]; intros H; [reflexivity|].
  cbn [forallb] in H. apply andb_true_iff in H. destruct H as [Hc Hs].
  cbn [existsb]. rewrite (IH Hs), orb_false_r.
  destruct (Z.eqb_spec sep c) as [->|_]; [congruence|reflexivity].
Qed.

(** A string the pattern accepts has exactly one colon, so the unpacking
    of [split(":")] into two names cannot fail. *)
Lemma re_match_split (s : str) :
  IdentifierEncoder.re_match s = true ->
  exists ns nm, split (ord ":") s = [ns; nm] /\ s = ns ++ ord ":" :: nm.
Proof.
  unfold IdentifierEncoder.re_match.
  destruct (span IdentifierEncoder.namespace_class s) as [ns rest] eqn:Hns.
  apply span_spec in Hns. destruct Hns as [-> Hnsc].
  destruct ns as [|n0 ns]; [discriminate|].
  destruct rest as [|c rest]; [discriminate|].
  destruct (Z.eqb_spec c (ord ":")) as [->|_]; [|discriminate].
  cbn [andb].
  destruct (span IdentifierEncoder.name_class rest) as [nm tail] eqn:Hnm.
  apply span_spec in Hnm. destruct Hnm as [-> Hnmc].
  assert (Hnmx : existsb (Z.eqb (ord ":")) nm = false)
    by (apply (class_excludes IdentifierEncoder.name_class); [reflexivity|exact Hnmc]).
  destruct nm as [|m0 nm]; [discriminate|].
  intros Htail. exists (n0 :: ns), ((m0 :: nm) ++ tail). split; [|reflexivity].
  rewrite (split_after_class IdentifierEncoder.namespace_class) by
    (reflexivity || exact Hnsc).
  rewrite split_no_separator; [reflexivity|].
  rewrite existsb_app, Hnmx.
  destruct tail as [|nl [|? ?]]; [reflexivity| |discriminate].
  apply Z.eqb_eq in Htail. subst nl. reflexivity.
Qed.

(** What Identifier [parse] does with a decoded string: the default
    namespace and the ten bytes added to the size when there is no colon,
    then the grammar, then the two names. *)
Lemma Identifier_parse_default_namespace (fuel : nat) (data : bytes) (s : str) (n : Z) :
  StringEncoder.parse fuel data = Ok (mkResult s n) ->
  existsb (Z.eqb (ord ":")) s = false ->
  IdentifierEncoder.re_match (str_of "minecraft:" ++ s) = true ->
  IdentifierEncoder.parse fuel data =
  Ok (mkResult (mkIdentifier (str_of "minecraft") s) (n + 10)).
Proof.
  intros Hp Hno Hre. unfold IdentifierEncoder.parse.
  rewrite Hp. cbn [bind value size]. rewrite Hno. cbn [negb value size].
  rewrite Hre. cbn [negb].
  change (str_of "minecraft:" ++ s) with (str_of "minecraft" ++ ord ":" :: s).
  rewrite (split_after_class IdentifierEncoder.namespace_class) by reflexivity.
  rewrite (split_no_separator _ _ Hno). reflexivity.
Qed.

Lemma Identifier_parse_with_namespace (fuel : nat) (data : bytes) (s : str) (n : Z) :
  StringEncoder.parse fuel data = Ok (mkResult s n) ->
  existsb (Z.eqb (ord ":")) s = true ->
  IdentifierEncoder.re_match s = true ->
  exists ns nm, s = ns ++ ord ":" :: nm /\
    IdentifierEncoder.parse fuel data = Ok (mkResult (mkIdentifier ns nm) n).
Proof.
  intros Hp Hyes Hre. unfold IdentifierEncoder.parse.
  rewrite Hp. cbn [bind value size]. rewrite Hyes. cbn [negb value size].
  rewrite Hre. cbn [negb].
  destruct (re_match_split s Hre) as (ns & nm & Hsplit & Hs).
  exists ns, nm. rewrite Hsplit. split; [exact Hs | reflexivity].
Qed.

Lemma Identifier_parse_format_error (fuel : nat) (data : bytes) (s : str) (n : Z) :
  StringEncoder.parse fuel data = Ok (mkResult s n) ->
  IdentifierEncoder.re_match
    (if existsb (Z.eqb (ord ":")) s then s else str_of "minecraft:" ++ s) = false ->
  IdentifierEncoder.parse fuel data =
  Raise (ValueError "IdentifierEncoder: Parsing error: '{string.value}' is not a valid identifier").
Proof.
  intros Hp Hre. unfold IdentifierEncoder.parse.
  rewrite Hp. cbn [bind value size].
  destruct (existsb (Z.eqb (ord ":")) s); cbn [negb value size];
    rewrite Hre; reflexivity.
Qed.

(** The default namespace at work: a buffer whose first byte, the length
    49, is also the digit ["1"], followed by 48 letters. *)
Example Identifier_parse_default_namespace_ex :
  IdentifierEncoder.parse 50 (bytes_of (0x31 :: repeat 0x61 48)) =
  Ok (mkResult (mkIdentifier (str_of "minecraft") (0x31 :: repeat 0x61 48)) 59).
Proof. vm_compute. reflexivity. Qed.

(** * The properties of the specification *)

(** C1.  VarInt [serialize] at the boundary values.  The values of one
    group, 0 and 127, give the single byte expected.  From 128 on a byte
    with the continuation bit has to be written; it goes through
    [ByteEncoder.serialize], whose range is [-128, 127], and the call
    raises [ValueError] instead of returning [0x80, 0x01], the five bytes
    of 2147483647 or those of the 32-bit pattern of -1. *)
Theorem varint_serialize_boundaries :
  VarIntEncoder.serialize 0 = Ok (bytes_of [0x00]) /\
  VarIntEncoder.serialize 127 = Ok (bytes_of [0x7F]) /\
  VarIntEncoder.serialize 128 =
    Raise (ValueError "ByteEncoder: Serialization error: {value} is not in range [-128, 127]") /\
  VarIntEncoder.serialize 2147483647 =
    Raise (ValueError "ByteEncoder: Serialization error: {value} is not in range [-128, 127]") /\
  VarIntEncoder.serialize 4294967295 =
    Raise (ValueError "ByteEncoder: Serialization error: {value} is not in range [-128, 127]") /\
  VarIntEncoder.serialize (-1) =
    Raise (ValueError "ByteEncoder: Serialization error: {value} is not in range [-128, 127]").
Proof. repeat split; reflexivity. Qed.

(** C2.  The string round trip on ["a"] and on the euro sign.  [serialize]
    writes the character count 1 and the UTF-8 bytes; [parse] decodes from
    index 0, so the first character it assembles is the prefix byte, and
    it returns the one-character string of code 1 with size 1, not the
    string that was written. *)
Theorem string_roundtrip_reads_prefix (fuel : nat) :
  StringEncoder.serialize (str_of "a") = Ok (bytes_of [0x01; 0x61]) /\
  StringEncoder.parse (2 + fuel) (bytes_of [0x01; 0x61]) = Ok (mkResult [1] 1) /\
  StringEncoder.serialize [0x20AC] = Ok (bytes_of [0x01; 0xE2; 0x82; 0xAC]) /\
  StringEncoder.parse (2 + fuel) (bytes_of [0x01; 0xE2; 0x82; 0xAC]) =
    Ok (mkResult [1] 1).
Proof. repeat split; reflexivity. Qed.

(** C3.  The size VarInt and VarLong [parse] report.  [size] is advanced
    after the test of the continuation bit, so the byte that ends the
    sequence is not counted: the one-byte sequence [0x00] reports 0 and
    the two-byte sequence [0x80, 0x01] reports 1. *)
Theorem varint_parse_size_misses_last_byte :
  VarIntEncoder.parse (bytes_of [0x00]) = Ok (mkResult 0 0) /\
  VarIntEncoder.parse (bytes_of [0x80; 0x01]) = Ok (mkResult 128 1) /\
  VarLongEncoder.parse (bytes_of [0x00]) = Ok (mkResult 0 0) /\
  VarLongEncoder.parse (bytes_of [0x80; 0x01]) = Ok (mkResult 128 1).
Proof. repeat split; reflexivity. Qed.

(** C4.  The position round trip.  At the largest coordinates of a
    26/26/12-bit split, [serialize] returns eight bytes and [parse] reads
    back other coordinates, because its masks keep the fields where they
    lie in the word instead of shifting them down; already (1, 0, 0) comes
    back as (64, 0, 0).  The size is 8. *)
Theorem position_roundtrip_boundary :
  PositionEncoder.serialize (mkPosition 33554431 33554431 2047) =
    Ok (bytes_of [0x7f; 0xff; 0xff; 0xdf; 0xff; 0xff; 0xf7; 0xff]) /\
  PositionEncoder.parse (bytes_of [0x7f; 0xff; 0xff; 0xdf; 0xff; 0xff; 0xf7; 0xff]) =
    Ok (mkResult (mkPosition 2147483584 268435440 2047) 8) /\
  PositionEncoder.serialize (mkPosition 1 0 0) =
    Ok (bytes_of [0; 0; 0; 0x40; 0; 0; 0; 0]) /\
  PositionEncoder.parse (bytes_of [0; 0; 0; 0x40; 0; 0; 0; 0]) =
    Ok (mkResult (mkPosition 64 0 0) 8).
Proof. repeat split; reflexivity. Qed.

(** C5.  The round trip of the fixed-width encoders at the extremes.
    Long returns both of its extremes and Short its lower one, but
    [ShortEncoder.serialize] tests the upper bound 23767 and raises at
    32767, the upper extreme of the range its own message names. *)
Theorem short_roundtrip_upper_extreme :
  (exists data, LongEncoder.serialize (-9223372036854775808) = Ok data /\
     LongEncoder.parse data = Ok (mkResult (-9223372036854775808) 8)) /\
  (exists data, LongEncoder.serialize 9223372036854775807 = Ok data /\
     LongEncoder.parse data = Ok (mkResult 9223372036854775807 8)) /\
  (exists data, ShortEncoder.serialize (-32768) = Ok data /\
     ShortEncoder.parse data = Ok (mkResult (-32768) 2)) /\
  ShortEncoder.serialize 32767 =
    Raise (ValueError "ShortEncoder: Serialization error: {value} is not in range [-32768, 32767]").
Proof.
  repeat split; try (eexists; split; reflexivity); reflexivity.
Qed.

(** C6.  The values Short [serialize] rejects.  It accepts 23767 and
    returns its two big-endian bytes, and it raises at 23768, which lies
    inside [-32768, 32767]. *)
Theorem short_serialize_rejects_inside_range :
  ShortEncoder.serialize 23767 = Ok (bytes_of [0x5c; 0xd7]) /\
  ShortEncoder.serialize 23768 =
    Raise (ValueError "ShortEncoder: Serialization error: {value} is not in range [-32768, 32767]").
Proof. split; reflexivity. Qed.

(** C7.  VarInt [parse] raises its "too big" [ValueError] (the overflow
    error of the specification) exactly when the first five bytes all carry
    the continuation bit, so that a sixth group would be needed; in every
    other case, that is when the sequence ends within five groups, it
    returns a value.  VarLong [parse] does the same with ten. *)
Theorem varint_parse_overflow (data : bytes) :
  VarIntEncoder.parse data =
    (if (5 <=? run data)%nat
     then Raise (ValueError "VarIntEncoder: Parsing error: VarInt is too big")
     else Ok (mkResult (group_value data) (Z.of_nat (run data)))) /\
  VarLongEncoder.parse data =
    (if (10 <=? run data)%nat
     then Raise (ValueError "VarLongEncoder: Parsing error: VarLong is too big")
     else Ok (mkResult (group_value data) (Z.of_nat (run data)))).
Proof. split; [apply VarInt_parse_run | apply VarLong_parse_run]. Qed.

(** C8.  Identifier [parse] on the encoding of ["stone"].  The string
    decoded is the prefix byte followed by ["ston"]; it has no colon and
    gets the ["minecraft:"] prefix, and then fails the grammar on its
    control character: [parse] raises instead of returning the identifier
    [minecraft:stone].  The encoding of ["FOO:bar"] raises too. *)
Theorem identifier_parse_stone (fuel : nat) :
  StringEncoder.serialize (str_of "stone") =
    Ok (bytes_of [0x05; 0x73; 0x74; 0x6f; 0x6e; 0x65]) /\
  StringEncoder.parse (6 + fuel) (bytes_of [0x05; 0x73; 0x74; 0x6f; 0x6e; 0x65]) =
    Ok (mkResult (5 :: str_of "ston") 5) /\
  IdentifierEncoder.parse (6 + fuel) (bytes_of [0x05; 0x73; 0x74; 0x6f; 0x6e; 0x65]) =
    Raise (ValueError "IdentifierEncoder: Parsing error: '{string.value}' is not a valid identifier") /\
  StringEncoder.serialize (str_of "FOO:bar") =
    Ok (bytes_of [0x07; 0x46; 0x4f; 0x4f; 0x3a; 0x62; 0x61; 0x72]) /\
  IdentifierEncoder.parse (8 + fuel)
      (bytes_of [0x07; 0x46; 0x4f; 0x4f; 0x3a; 0x62; 0x61; 0x72]) =
    Raise (ValueError "IdentifierEncoder: Parsing error: '{string.value}' is not a valid identifier").
Proof. repeat split; reflexivity. Qed.

(** C9.  Trailing bytes after a Float encoding.  [parse] of the four
    bytes of 1.0 returns them with size 4; with one more byte after them
    [struct.unpack] raises, where the integer encoders, which slice their
    input, return the same value and size. *)
Theorem float_parse_trailing_byte :
  FloatEncoder.serialize 0x3f800000 = Ok (bytes_of [0x3f; 0x80; 0x00; 0x00]) /\
  FloatEncoder.parse (bytes_of [0x3f; 0x80; 0x00; 0x00]) =
    Ok (mkResult 0x3f800000 4) /\
  FloatEncoder.parse (bytes_of [0x3f; 0x80; 0x00; 0x00] ++ bytes_of [0x00]) =
    Raise (StructError "unpack requires a buffer of {width} bytes") /\
  IntEncoder.parse (bytes_of [0x3f; 0x80; 0x00; 0x00] ++ bytes_of [0x00]) =
    IntEncoder.parse (bytes_of [0x3f; 0x80; 0x00; 0x00]).
Proof. repeat split; reflexivity. Qed.

(** C10.  For Byte, UnsignedByte, Short, UnsignedShort, Int and Long,
    [parse] of a buffer shorter than the width of the type returns: its
    value is the integer that the bytes present denote, 0 for the empty
    buffer, and its size is the full width. *)
Theorem short_buffer_parse (c : int_codec) (data : bytes) :
  (List.length data < codec_width c)%nat ->
  codec_parse c data =
    Ok (mkResult (int_from_bytes data (codec_signed c)) (Z.of_nat (codec_width c))) /\
  codec_parse c [] = Ok (mkResult 0 (Z.of_nat (codec_width c))).
Proof.
  intros Hlen. rewrite !codec_parse_eq. split.
  - rewrite firstn_all2 by lia. reflexivity.
  - rewrite firstn_nil. destruct c; reflexivity.
Qed.

Lemma short_buffer_parse_witness :
  Nat.lt (List.length (bytes_of [0xff; 0xfe])) (codec_width Int) /\
  codec_parse Int (bytes_of [0xff; 0xfe]) = Ok (mkResult (-2) 4) /\
  codec_parse Int [] = Ok (mkResult 0 4).
Proof.
  split; [unfold Nat.lt; simpl; lia|].
  apply (short_buffer_parse Int (bytes_of [0xff; 0xfe])). simpl. lia.
Defined.

(** * Further properties of the encoders *)

(** ** Fixed-width integers *)

Lemma unsigned_from_bytes_range (data : bytes) :
  0 <= unsigned_from_bytes data < 2 ^ (8 * Z.of_nat (List.length data)).
Proof.
  induction data as [|b data IH] using rev_ind.
  - cbn. lia.
  - rewrite unsigned_from_bytes_snoc, length_app. cbn [List.length].
    replace (8 * Z.of_nat (List.length data + 1))
      with (8 + 8 * Z.of_nat (List.length data)) by lia.
    rewrite Z.pow_add_r by lia. change (2 ^ 8) with 256.
    pose proof (byte_val_range b). nia.
Qed.

Lemma int_from_bytes_range (data : bytes) (signed : bool) (n : nat) :
  (List.length data <= n)%nat -> (0 < n)%nat ->
  if signed
  then - 2 ^ (8 * Z.of_nat n - 1) <= int_from_bytes data signed < 2 ^ (8 * Z.of_nat n - 1)
  else 0 <= int_from_bytes data signed < 2 ^ (8 * Z.of_nat n).
Proof.
  intros Hlen Hn. unfold int_from_bytes.
  pose proof (unsigned_from_bytes_range data) as Hu.
  set (u := unsigned_from_bytes data) in *.
  set (k := List.length data) in *.
  assert (Hmono : 2 ^ (8 * Z.of_nat k) <= 2 ^ (8 * Z.of_nat n))
    by (apply Z.pow_le_mono_r; lia).
  assert (Hpos : 0 < 2 ^ (8 * Z.of_nat n - 1)) by (apply Z.pow_pos_nonneg; lia).
  destruct signed; cbn [andb].
  - destruct (0 <? 8 * Z.of_nat k) eqn:Hk.
    + apply Z.ltb_lt in Hk.
      assert (Hp : 2 ^ (8 * Z.of_nat k) = 2 * 2 ^ (8 * Z.of_nat k - 1)).
      { replace (8 * Z.of_nat k) with (1 + (8 * Z.of_nat k - 1)) at 1 by lia.
        rewrite Z.pow_add_r by lia. reflexivity. }
      assert (Hmono' : 2 ^ (8 * Z.of_nat k - 1) <= 2 ^ (8 * Z.of_nat n - 1))
        by (apply Z.pow_le_mono_r; lia).
      destruct (2 ^ (8 * Z.of_nat k - 1) <=? u) eqn:Hs;
        [apply Z.leb_le in Hs | apply Z.leb_gt in Hs]; cbn [andb]; lia.
    + apply Z.ltb_ge in Hk.
      replace (8 * Z.of_nat k) with 0 in Hu by lia.
      change (2 ^ 0) with 1 in Hu. cbn [andb]. lia.
  - lia.
Qed.

Lemma byte_of_Z_mod (q r : Z) : byte_of_Z (q * 256 + r) = byte_of_Z r.
Proof.
  unfold byte_of_Z. rewrite Z.add_comm, Z.mod_add by lia. reflexivity.
Qed.

Lemma big_endian_unsigned_from_bytes (data : bytes) :
  big_endian (List.length data) (unsigned_from_bytes data) = data.
Proof.
  induction data as [|b data IH] using rev_ind; [reflexivity|].
  rewrite unsigned_from_bytes_snoc, length_app, Nat.add_comm.
  cbn [List.length Nat.add big_endian].
  pose proof (byte_val_range b).
  rewrite byte_of_Z_mod, byte_of_Z_val.
  replace ((unsigned_from_bytes data * 256 + byte_val b) / 256)
    with (unsigned_from_bytes data)
    by (apply (Z.div_unique _ _ _ (byte_val b)); lia).
  rewrite IH. reflexivity.
Qed.

Lemma int_from_bytes_mod (data : bytes) (signed : bool) :
  int_from_bytes data signed mod 2 ^ (8 * Z.of_nat (List.length data)) =
  unsigned_from_bytes data.
Proof.
  unfold int_from_bytes.
  pose proof (unsigned_from_bytes_range data) as Hu.
  destruct (signed && (0 <? 8 * Z.of_nat (List.length data))
            && (2 ^ (8 * Z.of_nat (List.length data) - 1) <=? unsigned_from_bytes data)).
  - symmetry. apply (Z.mod_unique _ _ (-1)); lia.
  - apply Z.mod_small. exact Hu.
Qed.

(** X1.  Round trip of the six integer encoders: a value inside the bounds
    that [serialize] tests (for Short the upper bound is 23767) is written
    and read back unchanged, with the width of the type as size. *)
Theorem int_codec_roundtrip (c : int_codec) (v : Z) :
  codec_low c <= v <= codec_high c ->
  exists data,
    codec_serialize c v = Ok data /\
    codec_parse c data = Ok (mkResult v (Z.of_nat (codec_width c))).
Proof.
  intros Hv. exists (codec_encoding c v). apply codec_roundtrip. exact Hv.
Qed.

Lemma int_codec_roundtrip_witness :
  codec_low Long <= -9223372036854775808 <= codec_high Long /\
  exists data,
    codec_serialize Long (-9223372036854775808) = Ok data /\
    codec_parse Long data = Ok (mkResult (-9223372036854775808) 8).
Proof.
  split; [simpl; lia|].
  apply (@int_codec_roundtrip Long (-9223372036854775808)). simpl. lia.
Defined.

(** X2.  The outcome of [serialize] for every integer: inside the tested
    bounds it returns exactly as many bytes as the width of the type, the
    big-endian two's complement of the value; outside it raises the
    [ValueError] of the encoder.  The [OverflowError] of [int.to_bytes] is
    never reached. *)
Theorem int_codec_serialize_outcome (c : int_codec) (v : Z) :
  codec_serialize c v =
    (if (codec_low c <=? v) && (v <=? codec_high c)
     then Ok (codec_encoding c v)
     else Raise (ValueError (codec_message c))) /\
  List.length (codec_encoding c v) = codec_width c.
Proof.
  split; [|apply big_endian_length].
  destruct ((codec_low c <=? v) && (v <=? codec_high c)) eqn:E.
  - apply andb_true_iff in E. rewrite !Z.leb_le in E.
    apply codec_serialize_accepts. lia.
  - apply andb_false_iff in E. rewrite !Z.leb_gt in E.
    destruct c; cbn [codec_low codec_high codec_serialize codec_message] in *;
      cbv [ByteEncoder.serialize UnsignedByteEncoder.serialize
           ShortEncoder.serialize UnsignedShortEncoder.serialize
           IntEncoder.serialize LongEncoder.serialize];
      match goal with
      | |- context [negb (andb (?a <=? v) (v <=? ?b))] =>
        replace (negb (andb (a <=? v) (v <=? b))) with true
          by (symmetry; apply negb_true_iff, andb_false_iff;
              rewrite !Z.leb_gt; lia)
      end; reflexivity.
Qed.

(** X3.  [parse] of an integer encoder reads the first bytes only: after a
    buffer of the width of the type, any further bytes change neither the
    value nor the size. *)
Theorem int_codec_parse_trailing (c : int_codec) (data extra : bytes) :
  List.length data = codec_width c ->
  codec_parse c (data ++ extra) = codec_parse c data.
Proof.
  intros Hlen. rewrite !codec_parse_eq.
  rewrite firstn_app, Hlen, Nat.sub_diag. cbn [firstn]. rewrite app_nil_r.
  reflexivity.
Qed.

Lemma int_codec_parse_trailing_witness :
  List.length (bytes_of [0x12; 0x34]) = codec_width UnsignedShort /\
  codec_parse UnsignedShort (bytes_of [0x12; 0x34] ++ bytes_of [0xff; 0xff]) =
  codec_parse UnsignedShort (bytes_of [0x12; 0x34]).
Proof.
  split; [reflexivity|].
  apply (@int_codec_parse_trailing UnsignedShort (bytes_of [0x12; 0x34])).
  reflexivity.
Defined.

(** X4.  [parse] of an integer encoder returns on every buffer, and the
    value it returns lies in the full range of the type: the signed range
    of the width for the signed encoders (so Short can return values up to
    32767, above what its [serialize] accepts), the unsigned one
    otherwise. *)
Theorem int_codec_parse_range (c : int_codec) (data : bytes) :
  exists v,
    codec_parse c data = Ok (mkResult v (Z.of_nat (codec_width c))) /\
    if codec_signed c
    then - 2 ^ (8 * Z.of_nat (codec_width c) - 1) <= v
         < 2 ^ (8 * Z.of_nat (codec_width c) - 1)
    else 0 <= v < 2 ^ (8 * Z.of_nat (codec_width c)).
Proof.
  eexists. split; [apply codec_parse_eq|].
  apply int_from_bytes_range.
  - rewrite length_firstn. lia.
  - destruct c; cbn; lia.
Qed.

(** X5.  The other round trip: on a buffer of exactly the width of the
    type, if the value read is one that [serialize] accepts, writing it
    gives the buffer back. *)
Theorem int_codec_parse_serialize (c : int_codec) (data : bytes) (v : Z) :
  List.length data = codec_width c ->
  codec_parse c data = Ok (mkResult v (Z.of_nat (codec_width c))) ->
  codec_low c <= v <= codec_high c ->
  codec_serialize c v = Ok data.
Proof.
  intros Hlen Hp Hv. rewrite codec_parse_eq in Hp.
  rewrite <- Hlen, firstn_all in Hp. injection Hp as Hval.
  rewrite codec_serialize_accepts by exact Hv. f_equal.
  unfold codec_encoding. rewrite <- Hlen, <- Hval, int_from_bytes_mod.
  apply big_endian_unsigned_from_bytes.
Qed.

Lemma int_codec_parse_serialize_witness :
  List.length (bytes_of [0xff; 0xfe]) = codec_width Short /\
  codec_parse Short (bytes_of [0xff; 0xfe]) = Ok (mkResult (-2) 2) /\
  codec_low Short <= -2 <= codec_high Short /\
  codec_serialize Short (-2) = Ok (bytes_of [0xff; 0xfe]).
Proof.
  split; [reflexivity|]. split; [reflexivity|]. split; [simpl; lia|].
  apply (@int_codec_parse_serialize Short (bytes_of [0xff; 0xfe]) (-2));
    [reflexivity | reflexivity | simpl; lia].
Defined.

(** ** Booleans *)

(** X6.  Round trip of the Boolean encoder: either value is written as one
    byte, and [parse] of that byte, whatever follows it, returns the value
    with size 1. *)
Theorem boolean_roundtrip_trailing (v : bool) (extra : bytes) :
  exists data,
    BooleanEncoder.serialize v = Ok data /\
    List.length data = 1%nat /\
    BooleanEncoder.parse (data ++ extra) = Ok (mkResult v 1).
Proof. destruct v; eexists; repeat split; reflexivity. Qed.

(** ** VarInt and VarLong *)

Lemma land_low_shiftl (a g n : Z) :
  0 <= n -> 0 <= a < 2 ^ n -> Z.land a (Z.shiftl g n) = 0.
Proof.
  intros Hn Ha. apply Z.bits_inj'. intros i Hi.
  rewrite Z.land_spec, Z.bits_0.
  destruct (Z_lt_le_dec i n) as [Hlt|Hge].
  - rewrite Z.shiftl_spec_low by lia. apply andb_false_r.
  - rewrite <- (Z.mod_small a (2 ^ n)) by lia.
    rewrite Z.mod_pow2_bits_high by lia. reflexivity.
Qed.

Lemma lor_shiftl_add (a g n : Z) :
  0 <= n -> 0 <= a < 2 ^ n -> Z.lor a (Z.shiftl g n) = a + g * 2 ^ n.
Proof.
  intros Hn Ha. pose proof (land_low_shiftl g Hn Ha) as Hd.
  rewrite <- (Z.lxor_lor _ _ Hd), <- (Z.add_nocarry_lxor _ _ Hd).
  rewrite Z.shiftl_mul_pow2 by lia. reflexivity.
Qed.

Lemma segment_mod (v : Z) : Z.land v 0x7f = v mod 128.
Proof. change 0x7f with (Z.ones 7). rewrite Z.land_ones by lia. reflexivity. Qed.

(** The groups as a number in base 128. *)
Lemma group_value_cons (b : byte) (rest : bytes) :
  group_value (b :: rest) =
  byte_val b mod 128 + (if continuation_bit b then 128 * group_value rest else 0).
Proof.
  cbn [group_value]. rewrite segment_mod.
  pose proof (Z.mod_pos_bound (byte_val b) 128 ltac:(lia)) as Hm.
  destruct (continuation_bit b).
  - rewrite lor_shiftl_add by (simpl; lia). change (2 ^ 7) with 128. lia.
  - rewrite Z.lor_0_r. lia.
Qed.

Lemma group_value_range (data : bytes) :
  0 <= group_value data < 2 ^ (7 * Z.of_nat (S (run data))).
Proof.
  induction data as [|b rest IH].
  - cbn. lia.
  - rewrite group_value_cons. cbn [run].
    pose proof (Z.mod_pos_bound (byte_val b) 128 ltac:(lia)) as Hm.
    destruct (continuation_bit b).
    + replace (7 * Z.of_nat (S (S (run rest))))
        with (7 + 7 * Z.of_nat (S (run rest))) by lia.
      rewrite Z.pow_add_r by lia. change (2 ^ 7) with 128. lia.
    + change (2 ^ (7 * Z.of_nat 1)) with 128. lia.
Qed.

Lemma run_le_length (data : bytes) : (run data <= List.length data)%nat.
Proof.
  induction data as [|b rest IH]; cbn [run List.length]; [lia|].
  destruct (continuation_bit b); lia.
Qed.

Lemma run_group_value_app (data extra : bytes) :
  (run data < List.length data)%nat ->
  run (data ++ extra) = run data /\
  group_value (data ++ extra) = group_value data.
Proof.
  induction data as [|b rest IH]; cbn [run List.length]; [lia|].
  intros H. cbn [app run group_value].
  destruct (continuation_bit b); [|split; reflexivity].
  destruct IH as [Hr Hg]; [lia|]. rewrite Hr, Hg. split; reflexivity.
Qed.

Lemma run_group_value_zero (data : bytes) :
  run data = List.length data ->
  run (data ++ [x00]) = run data /\
  group_value (data ++ [x00]) = group_value data.
Proof.
  induction data as [|b rest IH]; cbn [run List.length]; intros H.
  - split; reflexivity.
  - cbn [app run group_value].
    destruct (continuation_bit b); [|discriminate].
    destruct IH as [Hr Hg]; [lia|]. rewrite Hr, Hg. split; reflexivity.
Qed.

(** X7.  [serialize] of VarInt and of VarLong returns for the values of a
    single group only: 0 to 127 give one byte; every other integer,
    negative or above 127, raises the [ValueError] of
    [ByteEncoder.serialize], to which the first continuation byte is
    passed. *)
Theorem varint_serialize_outcome (v : Z) :
  VarIntEncoder.serialize v =
    (if (0 <=? v) && (v <=? 127)
     then Ok [byte_of_Z v]
     else Raise (ValueError "ByteEncoder: Serialization error: {value} is not in range [-128, 127]")) /\
  VarLongEncoder.serialize v =
    (if (0 <=? v) && (v <=? 127)
     then Ok [byte_of_Z v]
     else Raise (ValueError "ByteEncoder: Serialization error: {value} is not in range [-128, 127]")).
Proof. split; [apply VarInt_serialize_eq | apply VarLong_serialize_eq]. Qed.

(** X8.  Round trip of VarInt and VarLong on the values they can write:
    for 0 to 127 [parse] of the byte written returns the value, with the
    size 0 that it reports for a one-byte sequence. *)
Theorem varint_roundtrip_one_group (v : Z) :
  0 <= v <= 127 ->
  exists data,
    VarIntEncoder.serialize v = Ok data /\
    VarIntEncoder.parse data = Ok (mkResult v 0) /\
    VarLongEncoder.serialize v = Ok data /\
    VarLongEncoder.parse data = Ok (mkResult v 0).
Proof.
  intros Hv. exists [byte_of_Z v].
  assert (Hr : (0 <=? v) && (v <=? 127) = true)
    by (apply andb_true_iff; rewrite !Z.leb_le; lia).
  assert (Hb : byte_val (byte_of_Z v) = v)
    by (rewrite byte_val_of_Z; apply Z.mod_small; lia).
  assert (Hc : continuation_bit (byte_of_Z v) = false)
    by (unfold continuation_bit; rewrite Hb; apply Z.leb_gt; lia).
  assert (Hg : group_value [byte_of_Z v] = v).
  { rewrite group_value_cons, Hc, Hb. rewrite Z.mod_small by lia. lia. }
  rewrite VarInt_serialize_eq, VarLong_serialize_eq, Hr.
  rewrite VarInt_parse_run, VarLong_parse_run.
  cbn [run]. rewrite Hc, Hg. repeat split; reflexivity.
Qed.

Lemma varint_roundtrip_one_group_witness :
  0 <= 127 <= 127 /\
  exists data,
    VarIntEncoder.serialize 127 = Ok data /\
    VarIntEncoder.parse data = Ok (mkResult 127 0) /\
    VarLongEncoder.serialize 127 = Ok data /\
    VarLongEncoder.parse data = Ok (mkResult 127 0).
Proof.
  split; [lia|]. apply (@varint_roundtrip_one_group 127). lia.
Defined.

(** X9.  Once the byte that ends the sequence is in the buffer, VarInt and
    VarLong [parse] do not depend on what follows: appended bytes change
    neither the outcome, nor the value, nor the size. *)
Theorem varint_parse_trailing (data extra : bytes) :
  (run data < List.length data)%nat ->
  VarIntEncoder.parse (data ++ extra) = VarIntEncoder.parse data /\
  VarLongEncoder.parse (data ++ extra) = VarLongEncoder.parse data.
Proof.
  intros H. rewrite !VarInt_parse_run, !VarLong_parse_run.
  destruct (run_group_value_app data extra H) as [-> ->].
  split; reflexivity.
Qed.

Lemma varint_parse_trailing_witness :
  Nat.lt (run (bytes_of [0x80; 0x01])) (List.length (bytes_of [0x80; 0x01])) /\
  VarIntEncoder.parse (bytes_of [0x80; 0x01] ++ bytes_of [0xff]) =
    VarIntEncoder.parse (bytes_of [0x80; 0x01]) /\
  VarLongEncoder.parse (bytes_of [0x80; 0x01] ++ bytes_of [0xff]) =
    VarLongEncoder.parse (bytes_of [0x80; 0x01]).
Proof.
  split; [unfold Nat.lt; simpl; lia|].
  apply (@varint_parse_trailing (bytes_of [0x80; 0x01]) (bytes_of [0xff])).
  simpl. lia.
Defined.

(** X10.  The value VarInt [parse] returns is never negative and is below
    [2^35]; that of VarLong is below [2^70].  The groups are accumulated
    as an unsigned number and not brought back to 32 or 64 bits, so the
    five bytes of the 32-bit pattern of -1 parse as 4294967295. *)
Theorem varint_parse_value_range (data : bytes) (r : EncoderParseResult Z) :
  (VarIntEncoder.parse data = Ok r -> 0 <= value r < 2 ^ 35) /\
  (VarLongEncoder.parse data = Ok r -> 0 <= value r < 2 ^ 70).
Proof.
  pose proof (group_value_range data) as Hg.
  rewrite VarInt_parse_run, VarLong_parse_run. split.
  - destruct (5 <=? run data)%nat eqn:E; [discriminate|].
    apply Nat.leb_gt in E. intros H. injection H as <-. cbn [value].
    assert (2 ^ (7 * Z.of_nat (S (run data))) <= 2 ^ 35)
      by (apply Z.pow_le_mono_r; lia).
    lia.
  - destruct (10 <=? run data)%nat eqn:E; [discriminate|].
    apply Nat.leb_gt in E. intros H. injection H as <-. cbn [value].
    assert (2 ^ (7 * Z.of_nat (S (run data))) <= 2 ^ 70)
      by (apply Z.pow_le_mono_r; lia).
    lia.
Qed.

Lemma varint_parse_value_range_witness :
  VarIntEncoder.parse (bytes_of [0xff; 0xff; 0xff; 0xff; 0x0f]) =
    Ok (mkResult 4294967295 4) /\
  VarLongEncoder.parse (bytes_of [0xff; 0xff; 0xff; 0xff; 0x0f]) =
    Ok (mkResult 4294967295 4) /\
  0 <= 4294967295 < 2 ^ 35 /\ 0 <= 4294967295 < 2 ^ 70.
Proof.
  pose proof (@varint_parse_value_range
                (bytes_of [0xff; 0xff; 0xff; 0xff; 0x0f])
                (mkResult 4294967295 4)) as [H1 H2].
  split; [reflexivity|]. split; [reflexivity|].
  split; [exact (H1 eq_refl) | exact (H2 eq_refl)].
Defined.

(** X11.  A sequence cut off after a continuation byte is accepted: the
    byte that is missing is read as 0, so [parse] gives the same outcome
    as on the buffer with a zero byte appended.  In particular the empty
    buffer parses as the value 0. *)
Theorem varint_parse_truncated (data : bytes) :
  run data = List.length data ->
  VarIntEncoder.parse data = VarIntEncoder.parse (data ++ [x00]) /\
  VarLongEncoder.parse data = VarLongEncoder.parse (data ++ [x00]).
Proof.
  intros H. rewrite !VarInt_parse_run, !VarLong_parse_run.
  destruct (run_group_value_zero data H) as [-> ->].
  split; reflexivity.
Qed.

Lemma varint_parse_truncated_witness :
  run (bytes_of [0x81]) = List.length (bytes_of [0x81]) /\
  VarIntEncoder.parse (bytes_of [0x81]) = VarIntEncoder.parse (bytes_of [0x81] ++ [x00]) /\
  VarLongEncoder.parse (bytes_of [0x81]) = VarLongEncoder.parse (bytes_of [0x81] ++ [x00]).
Proof.
  split; [reflexivity|].
  apply (@varint_parse_truncated (bytes_of [0x81])). reflexivity.
Defined.

(** ** Strings *)

Lemma utf8_encode_ascii (s : str) :
  forallb ascii_char s = true -> utf8_encode s = Ok (map byte_of_Z s).
Proof.
  induction s as [|c s IH]; intros H; [reflexivity|].
  cbn [forallb] in H. apply andb_true_iff in H. destruct H as [Hc Hs].
  unfold ascii_char in Hc. apply andb_true_iff in Hc. destruct Hc as [_ Hc].
  cbn [utf8_encode map]. unfold utf8_encode_char.
  change 0x80 with 128. rewrite Hc. cbn [bind]. rewrite (IH Hs). reflexivity.
Qed.

Lemma String_serialize_eq (s : str) :
  StringEncoder.serialize s =
  if (List.length s =? 0)%nat || (32767 <? Z.of_nat (List.length s))
  then Raise (ValueError "StringEncoder: Serialization error: Invalid string length {length}")
  else if 127 <? Z.of_nat (List.length s)
  then Raise (ValueError "ByteEncoder: Serialization error: {value} is not in range [-128, 127]")
  else encoded <- utf8_encode s ;;
       Ok (byte_of_Z (Z.of_nat (List.length s)) :: encoded).
Proof.
  unfold StringEncoder.serialize.
  destruct (Nat.eqb_spec (List.length s) 0) as [H0|H0]; cbn [orb].
  - rewrite H0. reflexivity.
  - destruct (32767 <? Z.of_nat (List.length s)) eqn:Hbig.
    + apply Z.ltb_lt in Hbig.
      replace (Z.of_nat (List.length s) <=? 32767) with false
        by (symmetry; apply Z.leb_gt; lia).
      rewrite andb_false_r. reflexivity.
    + apply Z.ltb_ge in Hbig.
      replace (1 <=? Z.of_nat (List.length s)) with true
        by (symmetry; apply Z.leb_le; lia).
      replace (Z.of_nat (List.length s) <=? 32767) with true
        by (symmetry; apply Z.leb_le; lia).
      cbn [andb negb]. rewrite VarInt_serialize_eq.
      replace (0 <=? Z.of_nat (List.length s)) with true
        by (symmetry; apply Z.leb_le; lia).
      cbn [andb]. rewrite Z.leb_antisym.
      destruct (127 <? Z.of_nat (List.length s)); reflexivity.
Qed.

Lemma String_parse_eq (fuel : nat) (data : bytes) :
  StringEncoder.parse fuel data =
  if (5 <=? run data)%nat
  then Raise (ValueError "VarIntEncoder: Parsing error: VarInt is too big")
  else if 32767 <? group_value data
  then Raise (ValueError "StringEncoder: Parsing error: Invalid length {length.value}")
  else v <- StringEncoder.parse_loop fuel data (group_value data) [] 0 ;;
       encoded <- utf8_encode v ;;
       Ok (mkResult v (Z.of_nat (run data) + Z.of_nat (List.length encoded))).
Proof.
  unfold StringEncoder.parse. rewrite VarInt_parse_run.
  destruct (5 <=? run data)%nat; cbn [bind]; [reflexivity|].
  cbn [value size].
  pose proof (group_value_range data) as [Hg _].
  replace (0 <=? group_value data) with true by (symmetry; apply Z.leb_le; lia).
  cbn [andb]. rewrite Z.leb_antisym, negb_involutive. reflexivity.
Qed.

Lemma for_c_len_progress (data : bytes) (v : str) (i : Z) :
  0 <= i ->
  let '(v', i') := StringEncoder.for_c_len [1; 2; 3] data v i in
  (List.length v' = S (List.length v) /\ i + 1 <= i' <= Z.of_nat (List.length data))
  \/ (v' = v /\ i' = i)
  \/ (v' = v /\ i' = i + 1 /\ Z.of_nat (List.length data) <= i).
Proof.
  intros Hi. cbn [StringEncoder.for_c_len].
  rewrite !slice_window by lia.
  change (Z.to_nat 1) with 1%nat. change (Z.to_nat 2) with 2%nat.
  change (Z.to_nat 3) with 3%nat.
  pose proof (length_skipn (Z.to_nat i) data) as Hlen.
  destruct (skipn (Z.to_nat i) data) as [|b0 [|b1 [|b2 t]]] eqn:Ht;
    cbn [firstn utf8_decode option_map List.length] in *.
  - right; right. rewrite app_nil_r. repeat split; lia.
  - repeat match goal with
           | |- context [if ?b then _ else _] => destruct b
           end; cbn [option_map];
      first [ left; split; [rewrite length_app; simpl; lia | lia]
            | right; left; split; reflexivity ].
  - repeat match goal with
           | |- context [if ?b then _ else _] => destruct b
           end; cbn [option_map];
      first [ left; split; [rewrite length_app; simpl; lia | lia]
            | right; left; split; reflexivity ].
  - repeat match goal with
           | |- context [if ?b then _ else _] => destruct b
           end; cbn [option_map];
      first [ left; split; [rewrite length_app; simpl; lia | lia]
            | right; left; split; reflexivity ].
Qed.

(** The loop leaves with exactly the number of characters asked for. *)
Lemma String_parse_loop_length (fuel : nat) (data : bytes) (n : Z) :
  forall (v : str) (i : Z) (s : str),
    0 <= i -> Z.of_nat (List.length v) <= n ->
    StringEncoder.parse_loop fuel data n v i = Ok s ->
    Z.of_nat (List.length s) = n.
Proof.
  induction fuel as [|fuel IH]; intros v i s Hi Hv H; [discriminate|].
  cbn [StringEncoder.parse_loop] in H.
  destruct (Z.of_nat (List.length v) <? n) eqn:Hlt.
  - apply Z.ltb_lt in Hlt.
    pose proof (for_c_len_progress data v Hi) as Hc.
    destruct (StringEncoder.for_c_len [1; 2; 3] data v i) as [v' i'].
    destruct Hc as [[Hlen Hi'] | [[-> ->] | [-> [-> Hend]]]];
      refine (IH _ _ _ _ _ H); lia.
  - apply Z.ltb_ge in Hlt. injection H as <-. lia.
Qed.

(** A buffer with fewer bytes than the declared number of characters
    keeps the loop running for ever. *)
Lemma String_parse_loop_short_buffer (fuel : nat) (data : bytes) (n : Z) :
  Z.of_nat (List.length data) < n ->
  forall (v : str) (i : Z),
    Z.of_nat (List.length v) <= i <= Z.of_nat (List.length data) ->
    StringEncoder.parse_loop fuel data n v i = OutOfFuel.
Proof.
  intros Hn. induction fuel as [|fuel IH]; intros v i Hvi; [reflexivity|].
  cbn [StringEncoder.parse_loop].
  replace (Z.of_nat (List.length v) <? n) with true
    by (symmetry; apply Z.ltb_lt; lia).
  pose proof (@for_c_len_progress data v i ltac:(lia)) as Hc.
  destruct (StringEncoder.for_c_len [1; 2; 3] data v i) as [v' i'].
  destruct Hc as [[Hlen Hi'] | [[-> ->] | [-> [-> Hend]]]].
  - apply IH. lia.
  - apply IH. lia.
  - apply String_parse_loop_past_end; lia.
Qed.

Lemma for_c_len_ascii (data : bytes) (v : str) (i : nat) (b : byte) (rest : bytes) :
  skipn i data = b :: rest -> ascii_byte b = true ->
  StringEncoder.for_c_len [1; 2; 3] data v (Z.of_nat i) =
  (v ++ [byte_val b], Z.of_nat i + 1).
Proof.
  intros Hs Hb. cbn [StringEncoder.for_c_len].
  rewrite slice_window by lia. rewrite Nat2Z.id, Hs.
  change (Z.to_nat 1) with 1%nat. cbn [firstn utf8_decode].
  unfold ascii_byte in Hb. change 0x80 with 128. rewrite Hb. reflexivity.
Qed.

Lemma String_parse_loop_ascii (bs : bytes) :
  forall (fuel : nat) (data : bytes) (n : Z) (v : str) (i : nat) (rest : bytes),
    skipn i data = bs ++ rest ->
    forallb ascii_byte bs = true ->
    Z.of_nat (List.length v) + Z.of_nat (List.length bs) = n ->
    (List.length bs < fuel)%nat ->
    StringEncoder.parse_loop fuel data n v (Z.of_nat i) = Ok (v ++ map byte_val bs).
Proof.
  induction bs as [|b bs IH]; intros fuel data n v i rest Hs Ha Hn Hf;
    (destruct fuel as [|fuel]; [cbn [List.length] in Hf; lia|]);
    cbn [StringEncoder.parse_loop List.length] in *.
  - replace (Z.of_nat (List.length v) <? n) with false
      by (symmetry; apply Z.ltb_ge; lia).
    cbn [map]. rewrite app_nil_r. reflexivity.
  - replace (Z.of_nat (List.length v) <? n) with true
      by (symmetry; apply Z.ltb_lt; lia).
    cbn [forallb] in Ha. apply andb_true_iff in Ha. destruct Ha as [Hb Ha].
    cbn [app] in Hs.
    rewrite (for_c_len_ascii data v i Hs Hb).
    replace (Z.of_nat i + 1) with (Z.of_nat (S i)) by lia.
    rewrite (IH fuel data n (v ++ [byte_val b]) (S i) rest).
    + cbn [map]. rewrite <- app_assoc. reflexivity.
    + apply skipn_cons_inv in Hs. exact Hs.
    + exact Ha.
    + rewrite length_app. cbn [List.length]. lia.
    + lia.
Qed.

Lemma ascii_byte_char (bs : bytes) :
  forallb ascii_byte bs = true -> forallb ascii_char (map byte_val bs) = true.
Proof.
  induction bs as [|b bs IH]; intros H; [reflexivity|].
  cbn [forallb map] in *. apply andb_true_iff in H. destruct H as [Hb Hs].
  rewrite (IH Hs), andb_true_r. unfold ascii_char. unfold ascii_byte in Hb.
  rewrite Hb, andb_true_r. apply Z.leb_le. apply byte_val_range.
Qed.

(** On a buffer whose first byte [p] is below 128 and whose first
    [byte_val p] bytes are all below 128, [parse] returns those bytes as
    they stand. *)
Lemma String_parse_ascii (fuel : nat) (p : byte) (rest : bytes) :
  let n := Z.to_nat (byte_val p) in
  (n <= List.length (p :: rest))%nat ->
  forallb ascii_byte (p :: firstn n (p :: rest)) = true ->
  (n < fuel)%nat ->
  StringEncoder.parse fuel (p :: rest) =
  Ok (mkResult (map byte_val (firstn n (p :: rest))) (byte_val p)).
Proof.
  intros n Hlen Ha Hf.
  cbn [forallb] in Ha. apply andb_true_iff in Ha. destruct Ha as [Hp Ha].
  pose proof (byte_val_range p) as Hr.
  assert (Hc : continuation_bit p = false).
  { unfold continuation_bit. unfold ascii_byte in Hp.
    apply Z.ltb_lt in Hp. apply Z.leb_gt. lia. }
  assert (Hg : group_value (p :: rest) = byte_val p).
  { rewrite group_value_cons, Hc. unfold ascii_byte in Hp. apply Z.ltb_lt in Hp.
    rewrite Z.mod_small by lia. lia. }
  rewrite String_parse_eq. cbn [run]. rewrite Hc, Hg. cbn [Nat.leb].
  replace (32767 <? byte_val p) with false by (symmetry; apply Z.ltb_ge; lia).
  assert (Hn : List.length (firstn n (p :: rest)) = n)
    by (apply firstn_length_le; exact Hlen).
  change 0 with (Z.of_nat 0) at 1.
  rewrite (@String_parse_loop_ascii (firstn n (p :: rest)) fuel (p :: rest)
             (byte_val p) [] 0%nat (skipn n (p :: rest))).
  - cbn [bind app].
    rewrite (utf8_encode_ascii _ (ascii_byte_char _ Ha)). cbn [bind].
    rewrite !length_map, Hn. do 2 f_equal. unfold n. lia.
  - cbn [skipn]. symmetry. apply firstn_skipn.
  - exact Ha.
  - rewrite Hn. cbn [List.length]. unfold n. lia.
  - rewrite Hn. exact Hf.
Qed.

Lemma utf8_encode_length (s : str) (encoded : bytes) :
  utf8_encode s = Ok encoded -> (List.length s <= List.length encoded)%nat.
Proof.
  revert encoded. induction s as [|c s IH]; intros encoded H.
  - injection H as <-. cbn. lia.
  - cbn [utf8_encode] in H.
    destruct (utf8_encode_char c) as [b|e|] eqn:Hc; cbn [bind] in H; try discriminate.
    destruct (utf8_encode s) as [bs|e|]; cbn [bind] in H; try discriminate.
    injection H as <-. specialize (IH bs eq_refl).
    assert (1 <= List.length b)%nat.
    { unfold utf8_encode_char in Hc.
      repeat match type of Hc with
             | context [if ?x then _ else _] => destruct x
             end; try discriminate; injection Hc as <-; cbn; lia. }
    rewrite length_app. cbn [List.length]. lia.
Qed.

Lemma ascii_char_bytes (s : str) :
  forallb ascii_char s = true ->
  forallb ascii_byte (map byte_of_Z s) = true /\
  map byte_val (map byte_of_Z s) = s.
Proof.
  induction s as [|c s IH]; intros H; [split; reflexivity|].
  cbn [forallb map] in *. apply andb_true_iff in H. destruct H as [Hc Hs].
  destruct (IH Hs) as [Ha Hm]. rewrite Ha, Hm, andb_true_r.
  unfold ascii_char in Hc. apply andb_true_iff in Hc.
  rewrite Z.leb_le, Z.ltb_lt in Hc.
  assert (Hv : byte_val (byte_of_Z c) = c)
    by (rewrite byte_val_of_Z; apply Z.mod_small; lia).
  unfold ascii_byte. rewrite Hv. split; [apply Z.ltb_lt; lia | reflexivity].
Qed.

Lemma forallb_firstn {A : Type} (f : A -> bool) (l : list A) (n : nat) :
  forallb f l = true -> forallb f (firstn n l) = true.
Proof.
  revert n. induction l as [|a l IH]; intros [|n] H; try reflexivity.
  cbn [forallb firstn] in *. apply andb_true_iff in H. destruct H as [Ha Hl].
  rewrite Ha, (IH n Hl). reflexivity.
Qed.

(** X12.  The outcome of String [serialize] for every string: the length
    error for the empty string and above 32767 characters; from 128
    characters on, the [ValueError] of [ByteEncoder.serialize] that the
    VarInt prefix runs into; and for 1 to 127 characters the count as one
    byte followed by the UTF-8 bytes, or the encoding error of a
    surrogate. *)
Theorem string_serialize_outcome (s : str) :
  StringEncoder.serialize s =
  if (List.length s =? 0)%nat || (32767 <? Z.of_nat (List.length s))
  then Raise (ValueError "StringEncoder: Serialization error: Invalid string length {length}")
  else if 127 <? Z.of_nat (List.length s)
  then Raise (ValueError "ByteEncoder: Serialization error: {value} is not in range [-128, 127]")
  else encoded <- utf8_encode s ;;
       Ok (byte_of_Z (Z.of_nat (List.length s)) :: encoded).
Proof. apply String_serialize_eq. Qed.

(** X13.  The errors of String [parse] before any character is read: an
    over-long VarInt prefix raises the VarInt error, and a declared length
    above 32767 raises the length error, whatever the fuel. *)
Theorem string_parse_prefix_errors (fuel : nat) (data : bytes) :
  ((5 <= run data)%nat ->
   StringEncoder.parse fuel data =
   Raise (ValueError "VarIntEncoder: Parsing error: VarInt is too big")) /\
  ((run data < 5)%nat -> 32767 < group_value data ->
   StringEncoder.parse fuel data =
   Raise (ValueError "StringEncoder: Parsing error: Invalid length {length.value}")).
Proof.
  rewrite String_parse_eq. split.
  - intros H. apply Nat.leb_le in H. rewrite H. reflexivity.
  - intros H Hg. apply Nat.leb_gt in H. apply Z.ltb_lt in Hg.
    rewrite H, Hg. reflexivity.
Qed.

Lemma string_parse_prefix_errors_witness :
  (Nat.le 5 (run (bytes_of [0xff; 0xff; 0xff; 0xff; 0xff])) /\
   StringEncoder.parse 0 (bytes_of [0xff; 0xff; 0xff; 0xff; 0xff]) =
   Raise (ValueError "VarIntEncoder: Parsing error: VarInt is too big")) /\
  (Nat.lt (run (bytes_of [0x80; 0x80; 0x02])) 5 /\
   32767 < group_value (bytes_of [0x80; 0x80; 0x02]) /\
   StringEncoder.parse 0 (bytes_of [0x80; 0x80; 0x02]) =
   Raise (ValueError "StringEncoder: Parsing error: Invalid length {length.value}")).
Proof.
  split.
  - split; [unfold Nat.le; simpl; lia|].
    apply (proj1 (string_parse_prefix_errors 0 (bytes_of [0xff; 0xff; 0xff; 0xff; 0xff]))).
    simpl. lia.
  - split; [unfold Nat.lt; simpl; lia|]. split; [reflexivity|].
    apply (proj2 (string_parse_prefix_errors 0 (bytes_of [0x80; 0x80; 0x02])));
      [simpl; lia | reflexivity].
Defined.

(** X14.  A declared length of 0 gives the empty string at once, without
    reading a character: this holds for the empty buffer too, which parses
    as the empty string with size 0. *)
Theorem string_parse_zero_length (fuel : nat) (data : bytes) :
  (run data < 5)%nat -> group_value data = 0 ->
  StringEncoder.parse (S fuel) data = Ok (mkResult [] (Z.of_nat (run data))).
Proof.
  intros Hr Hg. rewrite String_parse_eq.
  apply Nat.leb_gt in Hr. rewrite Hr, Hg. cbn. do 2 f_equal. lia.
Qed.

Lemma string_parse_zero_length_witness :
  Nat.lt (run []) 5 /\ group_value [] = 0 /\
  StringEncoder.parse 1 [] = Ok (mkResult [] 0).
Proof.
  split; [unfold Nat.lt; simpl; lia|]. split; [reflexivity|].
  apply (@string_parse_zero_length 0 []); [simpl; lia | reflexivity].
Defined.

(** X15.  When String [parse] returns, the string has exactly the declared
    number of characters, and the size is at least the size reported for
    the prefix plus one byte per character. *)
Theorem string_parse_char_count (fuel : nat) (data : bytes)
  (r : EncoderParseResult str) :
  StringEncoder.parse fuel data = Ok r ->
  Z.of_nat (List.length (value r)) = group_value data /\
  Z.of_nat (run data) + group_value data <= size r.
Proof.
  rewrite String_parse_eq.
  destruct (5 <=? run data)%nat; [discriminate|].
  destruct (32767 <? group_value data); [discriminate|].
  destruct (StringEncoder.parse_loop fuel data (group_value data) [] 0)
    as [s|e|] eqn:Hloop; cbn [bind]; try discriminate.
  destruct (utf8_encode s) as [encoded|e|] eqn:Henc; cbn [bind]; try discriminate.
  intros H. injection H as <-. cbn [value size].
  pose proof (group_value_range data) as [Hg _].
  pose proof (@String_parse_loop_length fuel data (group_value data) [] 0 s
                ltac:(lia) ltac:(cbn; lia) Hloop) as Hlen.
  pose proof (utf8_encode_length s Henc).
  split; lia.
Qed.

Lemma string_parse_char_count_witness :
  StringEncoder.parse 3 (bytes_of [0x02; 0xc3; 0xa9]) = Ok (mkResult [2; 0xe9] 3) /\
  Z.of_nat (List.length [2; 0xe9]) = group_value (bytes_of [0x02; 0xc3; 0xa9]) /\
  Z.of_nat (run (bytes_of [0x02; 0xc3; 0xa9])) + group_value (bytes_of [0x02; 0xc3; 0xa9]) <= 3.
Proof.
  split; [reflexivity|].
  apply (@string_parse_char_count 3 (bytes_of [0x02; 0xc3; 0xa9])
           (mkResult [2; 0xe9] 3)).
  reflexivity.
Defined.

(** X16.  String [parse] never finishes on a buffer that holds fewer bytes
    than the declared number of characters: once the data is used up the
    loop keeps appending the empty string, so for every amount of fuel the
    call has neither returned nor raised. *)
Theorem string_parse_short_buffer (data : bytes) :
  (run data < 5)%nat ->
  Z.of_nat (List.length data) < group_value data <= 32767 ->
  forall fuel, StringEncoder.parse fuel data = OutOfFuel.
Proof.
  intros Hr [Hlen Hmax] fuel. rewrite String_parse_eq.
  apply Nat.leb_gt in Hr. rewrite Hr.
  replace (32767 <? group_value data) with false
    by (symmetry; apply Z.ltb_ge; lia).
  rewrite (@String_parse_loop_short_buffer fuel data (group_value data) Hlen [] 0);
    [reflexivity | cbn; lia].
Qed.

Lemma string_parse_short_buffer_witness :
  Nat.lt (run (bytes_of [0x05; 0x61])) 5 /\
  Z.of_nat (List.length (bytes_of [0x05; 0x61])) < group_value (bytes_of [0x05; 0x61]) <= 32767 /\
  forall fuel, StringEncoder.parse fuel (bytes_of [0x05; 0x61]) = OutOfFuel.
Proof.
  split; [unfold Nat.lt; simpl; lia|]. split; [cbn; lia|].
  apply (@string_parse_short_buffer (bytes_of [0x05; 0x61])); [simpl; lia | cbn; lia].
Defined.

(** X17.  String [parse] on a message of bytes below 128: when the first
    byte [p], read as the length, and the first [p] bytes of the buffer are
    all below 128, the string returned is those first [p] bytes, the prefix
    byte included and the last byte of the message left unread, and the
    size is [p]. *)
Theorem string_parse_ascii (fuel : nat) (p : byte) (rest : bytes) :
  (Z.to_nat (byte_val p) <= List.length (p :: rest))%nat ->
  forallb ascii_byte (p :: firstn (Z.to_nat (byte_val p)) (p :: rest)) = true ->
  (Z.to_nat (byte_val p) < fuel)%nat ->
  StringEncoder.parse fuel (p :: rest) =
  Ok (mkResult (map byte_val (firstn (Z.to_nat (byte_val p)) (p :: rest)))
        (byte_val p)).
Proof. apply String_parse_ascii. Qed.

Lemma string_parse_ascii_witness :
  Nat.le (Z.to_nat (byte_val "002"%byte)) (List.length ("002"%byte :: bytes_of [0x68; 0x69])) /\
  StringEncoder.parse 3 ("002"%byte :: bytes_of [0x68; 0x69]) =
  Ok (mkResult [2; 0x68] 2).
Proof.
  split; [unfold Nat.le; simpl; lia|].
  apply (@string_parse_ascii 3 "002"%byte (bytes_of [0x68; 0x69]));
    [simpl; lia | reflexivity | simpl; lia].
Defined.

(** X18.  Writing then reading a string of 1 to 127 characters, all below
    128: [serialize] returns, and [parse] of its bytes returns the
    character whose code is the length followed by the string without its
    last character, with the length as size.  The string itself comes back
    only if it repeats the character whose code is its length. *)
Theorem string_ascii_roundtrip_shift (s : str) :
  forallb ascii_char s = true ->
  1 <= Z.of_nat (List.length s) <= 127 ->
  exists data,
    StringEncoder.serialize s = Ok data /\
    forall fuel, (List.length s < fuel)%nat ->
      StringEncoder.parse fuel data =
      Ok (mkResult (Z.of_nat (List.length s) :: removelast s)
            (Z.of_nat (List.length s))).
Proof.
  intros Ha Hlen.
  set (L := Z.of_nat (List.length s)) in *.
  exists (byte_of_Z L :: map byte_of_Z s). split.
  - rewrite String_serialize_eq.
    replace (List.length s =? 0)%nat with false
      by (symmetry; apply Nat.eqb_neq; lia).
    replace (32767 <? Z.of_nat (List.length s)) with false
      by (symmetry; apply Z.ltb_ge; lia).
    replace (127 <? Z.of_nat (List.length s)) with false
      by (symmetry; apply Z.ltb_ge; lia).
    cbn [orb]. rewrite (utf8_encode_ascii s Ha). reflexivity.
  - intros fuel Hf.
    destruct (ascii_char_bytes s Ha) as [Hb Hm].
    assert (Hp : byte_val (byte_of_Z L) = L)
      by (rewrite byte_val_of_Z; apply Z.mod_small; lia).
    assert (Hn : Z.to_nat (byte_val (byte_of_Z L)) = List.length s)
      by (rewrite Hp; unfold L; lia).
    rewrite String_parse_ascii.
    + rewrite Hn, Hp.
      destruct (List.length s) as [|k] eqn:Hk; [lia|].
      cbn [firstn map]. rewrite Hp, <- firstn_map, Hm.
      rewrite removelast_firstn_len, Hk. reflexivity.
    + rewrite Hn. cbn [List.length]. rewrite length_map. lia.
    + rewrite Hn. cbn [forallb].
      replace (ascii_byte (byte_of_Z L)) with true
        by (symmetry; unfold ascii_byte; rewrite Hp; apply Z.ltb_lt; lia).
      cbn [andb]. apply forallb_firstn. cbn [forallb].
      replace (ascii_byte (byte_of_Z L)) with true
        by (symmetry; unfold ascii_byte; rewrite Hp; apply Z.ltb_lt; lia).
      exact Hb.
    + rewrite Hn. exact Hf.
Qed.

Lemma string_ascii_roundtrip_shift_witness :
  forallb ascii_char (str_of "stone") = true /\
  1 <= Z.of_nat (List.length (str_of "stone")) <= 127 /\
  exists data,
    StringEncoder.serialize (str_of "stone") = Ok data /\
    forall fuel, (List.length (str_of "stone") < fuel)%nat ->
      StringEncoder.parse fuel data =
      Ok (mkResult (Z.of_nat (List.length (str_of "stone")) :: removelast (str_of "stone"))
            (Z.of_nat (List.length (str_of "stone")))).
Proof.
  split; [reflexivity|]. split; [cbn; lia|].
  apply (@string_ascii_roundtrip_shift (str_of "stone")); [reflexivity | cbn; lia].
Defined.

(** ** Identifiers *)

(** The shape of a string the pattern accepts. *)
Lemma re_match_parts (s : str) :
  IdentifierEncoder.re_match s = true ->
  exists ns nm tail,
    split (ord ":") s = [ns; nm ++ tail] /\
    ns <> [] /\ forallb IdentifierEncoder.namespace_class ns = true /\
    nm <> [] /\ forallb IdentifierEncoder.name_class nm = true /\
    (tail = [] \/ tail = [10]).
Proof.
  unfold IdentifierEncoder.re_match.
  destruct (span IdentifierEncoder.namespace_class s) as [ns rest] eqn:Hns.
  apply span_spec in Hns. destruct Hns as [-> Hnsc].
  destruct ns as [|n0 ns]; [discriminate|].
  destruct rest as [|c rest]; [discriminate|].
  destruct (Z.eqb_spec c (ord ":")) as [->|_]; [|discriminate].
  cbn [andb].
  destruct (span IdentifierEncoder.name_class rest) as [nm tail] eqn:Hnm.
  apply span_spec in Hnm. destruct Hnm as [-> Hnmc].
  assert (Hnmx : existsb (Z.eqb (ord ":")) nm = false)
    by (apply (class_excludes IdentifierEncoder.name_class); [reflexivity|exact Hnmc]).
  destruct nm as [|m0 nm]; [discriminate|].
  intros Htail. exists (n0 :: ns), (m0 :: nm), tail.
  assert (Ht : tail = [] \/ tail = [10]).
  { destruct tail as [|nl [|? ?]]; [left; reflexivity| |discriminate].
    apply Z.eqb_eq in Htail. subst nl. right. reflexivity. }
  repeat split; try assumption; try discriminate.
  rewrite (split_after_class IdentifierEncoder.namespace_class) by
    (reflexivity || exact Hnsc).
  rewrite split_no_separator; [reflexivity|].
  rewrite existsb_app, Hnmx. destruct Ht as [-> | ->]; reflexivity.
Qed.

(** X19.  The default namespace: when the string decoded has no colon and
    passes the grammar once ["minecraft:"] is put in front of it, Identifier
    [parse] returns the namespace ["minecraft"] with the string as name, and
    a size 10 above the size the String encoder reported. *)
Theorem identifier_parse_default_namespace (fuel : nat) (data : bytes)
  (s : str) (n : Z) :
  StringEncoder.parse fuel data = Ok (mkResult s n) ->
  existsb (Z.eqb (ord ":")) s = false ->
  IdentifierEncoder.re_match (str_of "minecraft:" ++ s) = true ->
  IdentifierEncoder.parse fuel data =
  Ok (mkResult (mkIdentifier (str_of "minecraft") s) (n + 10)).
Proof. apply Identifier_parse_default_namespace. Qed.

Lemma identifier_parse_default_namespace_witness :
  StringEncoder.parse 50 (bytes_of (0x31 :: repeat 0x61 48)) =
    Ok (mkResult (0x31 :: repeat 0x61 48) 49) /\
  IdentifierEncoder.parse 50 (bytes_of (0x31 :: repeat 0x61 48)) =
    Ok (mkResult (mkIdentifier (str_of "minecraft") (0x31 :: repeat 0x61 48)) (49 + 10)).
Proof.
  split; [vm_compute; reflexivity|].
  apply (@identifier_parse_default_namespace 50
           (bytes_of (0x31 :: repeat 0x61 48)) (0x31 :: repeat 0x61 48) 49);
    vm_compute; reflexivity.
Defined.

(** X20.  With a colon in the string decoded and the grammar passed,
    Identifier [parse] returns the part before the colon as namespace and
    the part after it as name, and the size of the String encoder
    unchanged. *)
Theorem identifier_parse_with_namespace (fuel : nat) (data : bytes)
  (s : str) (n : Z) :
  StringEncoder.parse fuel data = Ok (mkResult s n) ->
  existsb (Z.eqb (ord ":")) s = true ->
  IdentifierEncoder.re_match s = true ->
  exists ns nm, s = ns ++ ord ":" :: nm /\
    IdentifierEncoder.parse fuel data = Ok (mkResult (mkIdentifier ns nm) n).
Proof. apply Identifier_parse_with_namespace. Qed.

Lemma identifier_parse_with_namespace_witness :
  StringEncoder.parse 52 (bytes_of (0x33 :: 0x61 :: 0x3a :: repeat 0x62 48)) =
    Ok (mkResult (0x33 :: 0x61 :: 0x3a :: repeat 0x62 48) 51) /\
  exists ns nm, 0x33 :: 0x61 :: 0x3a :: repeat 0x62 48 = ns ++ ord ":" :: nm /\
    IdentifierEncoder.parse 52 (bytes_of (0x33 :: 0x61 :: 0x3a :: repeat 0x62 48)) =
    Ok (mkResult (mkIdentifier ns nm) 51).
Proof.
  split; [vm_compute; reflexivity|].
  apply (@identifier_parse_with_namespace 52
           (bytes_of (0x33 :: 0x61 :: 0x3a :: repeat 0x62 48))
           (0x33 :: 0x61 :: 0x3a :: repeat 0x62 48) 51);
    vm_compute; reflexivity.
Defined.

(** X21.  What Identifier [parse] can return: the namespace is not empty
    and made of [a-z0-9_.-]; the name is a string, not empty, of
    [a-z0-9_./-], possibly followed by one newline, which the [$] of the
    pattern lets through. *)
Theorem identifier_parse_grammar (fuel : nat) (data : bytes)
  (r : EncoderParseResult Identifier) :
  IdentifierEncoder.parse fuel data = Ok r ->
  namespace (value r) <> [] /\
  forallb IdentifierEncoder.namespace_class (namespace (value r)) = true /\
  exists nm tail,
    name (value r) = nm ++ tail /\ nm <> [] /\
    forallb IdentifierEncoder.name_class nm = true /\
    (tail = [] \/ tail = [10]).
Proof.
  unfold IdentifierEncoder.parse.
  destruct (StringEncoder.parse fuel data) as [[s n]|e|]; cbn [bind];
    try discriminate.
  set (string := if negb (existsb (Z.eqb (ord ":")) (value (mkResult s n)))
                 then _ else _).
  destruct (IdentifierEncoder.re_match (value string)) eqn:Hre; cbn [negb];
    [|discriminate].
  destruct (re_match_parts _ Hre)
    as (ns & nm & tail & Hsplit & Hns & Hnsc & Hnm & Hnmc & Htail).
  rewrite Hsplit. intros H. injection H as <-. cbn [value namespace name].
  split; [exact Hns|]. split; [exact Hnsc|].
  exists nm, tail. repeat split; assumption.
Qed.

Lemma identifier_parse_grammar_witness :
  IdentifierEncoder.parse 50
      (bytes_of (0x31 :: 0x61 :: 0x3a :: repeat 0x62 45 ++ [0x0a])) =
    Ok (mkResult (mkIdentifier [0x31; 0x61] (repeat 0x62 45 ++ [0x0a])) 49) /\
  [0x31; 0x61] <> [] /\
  forallb IdentifierEncoder.namespace_class [0x31; 0x61] = true /\
  exists nm tail,
    repeat 0x62 45 ++ [0x0a] = nm ++ tail /\ nm <> [] /\
    forallb IdentifierEncoder.name_class nm = true /\
    (tail = [] \/ tail = [10]).
Proof.
  split; [vm_compute; reflexivity|].
  apply (@identifier_parse_grammar 50
           (bytes_of (0x31 :: 0x61 :: 0x3a :: repeat 0x62 45 ++ [0x0a]))
           (mkResult (mkIdentifier [0x31; 0x61] (repeat 0x62 45 ++ [0x0a])) 49)).
  vm_compute. reflexivity.
Defined.

(** X22.  The errors of Identifier [parse]: it raises either what the
    String encoder raises on the buffer or its own format error.  The
    unpacking of [split(":")] into two names never fails, since a string
    the pattern accepts has exactly one colon. *)
Theorem identifier_parse_errors (fuel : nat) (data : bytes) (e : exception) :
  IdentifierEncoder.parse fuel data = Raise e ->
  StringEncoder.parse fuel data = Raise e \/
  e = ValueError "IdentifierEncoder: Parsing error: '{string.value}' is not a valid identifier".
Proof.
  unfold IdentifierEncoder.parse.
  destruct (StringEncoder.parse fuel data) as [[s n]|e'|]; cbn [bind];
    [|intros H; left; injection H as ->; reflexivity|discriminate].
  set (string := if negb (existsb (Z.eqb (ord ":")) (value (mkResult s n)))
                 then _ else _).
  destruct (IdentifierEncoder.re_match (value string)) eqn:Hre; cbn [negb].
  - destruct (re_match_parts _ Hre) as (ns & nm & tail & Hsplit & _).
    rewrite Hsplit. discriminate.
  - intros H. injection H as <-. right. reflexivity.
Qed.

Lemma identifier_parse_errors_witness :
  IdentifierEncoder.parse 6 (bytes_of [0x05; 0x73; 0x74; 0x6f; 0x6e; 0x65]) =
    Raise (ValueError "IdentifierEncoder: Parsing error: '{string.value}' is not a valid identifier") /\
  (StringEncoder.parse 6 (bytes_of [0x05; 0x73; 0x74; 0x6f; 0x6e; 0x65]) =
     Raise (ValueError "IdentifierEncoder: Parsing error: '{string.value}' is not a valid identifier") \/
   ValueError "IdentifierEncoder: Parsing error: '{string.value}' is not a valid identifier" =
   ValueError "IdentifierEncoder: Parsing error: '{string.value}' is not a valid identifier").
Proof.
  split; [reflexivity|].
  apply (@identifier_parse_errors 6 (bytes_of [0x05; 0x73; 0x74; 0x6f; 0x6e; 0x65])).
  reflexivity.
Defined.

(** X23.  Identifier [serialize] does not look at the grammar: for any
    namespace and name of characters below 128 with at most 126 characters
    together, the empty ones included, it returns the count, then the
    namespace, a colon and the name. *)
Theorem identifier_serialize_ascii (id : Identifier) :
  forallb ascii_char (namespace id) = true ->
  forallb ascii_char (name id) = true ->
  Z.of_nat (List.length (namespace id)) + Z.of_nat (List.length (name id)) <= 126 ->
  IdentifierEncoder.serialize id =
  Ok (byte_of_Z (Z.of_nat (List.length (namespace id)) + Z.of_nat (List.length (name id)) + 1)
        :: map byte_of_Z (namespace id ++ ord ":" :: name id)).
Proof.
  intros Hns Hnm Hlen. unfold IdentifierEncoder.serialize.
  cbn [app]. rewrite String_serialize_eq.
  assert (Hl : Z.of_nat (List.length (namespace id ++ ord ":" :: name id)) =
               Z.of_nat (List.length (namespace id)) + Z.of_nat (List.length (name id)) + 1)
    by (rewrite length_app; cbn [List.length]; lia).
  replace (List.length (namespace id ++ ord ":" :: name id) =? 0)%nat with false
    by (symmetry; apply Nat.eqb_neq; lia).
  rewrite Hl.
  replace (32767 <? _) with false by (symmetry; apply Z.ltb_ge; lia).
  replace (127 <? _) with false by (symmetry; apply Z.ltb_ge; lia).
  cbn [orb]. rewrite utf8_encode_ascii; [reflexivity|].
  rewrite forallb_app. cbn [forallb]. rewrite Hns, Hnm. reflexivity.
Qed.

Lemma identifier_serialize_ascii_witness :
  forallb ascii_char (str_of "FOO") = true /\
  forallb ascii_char [] = true /\
  IdentifierEncoder.serialize (mkIdentifier (str_of "FOO") []) =
  Ok (bytes_of [0x04; 0x46; 0x4f; 0x4f; 0x3a]).
Proof.
  split; [reflexivity|]. split; [reflexivity|].
  apply (@identifier_serialize_ascii (mkIdentifier (str_of "FOO") []));
    [reflexivity | reflexivity | cbn; lia].
Defined.

(** ** Positions *)

Lemma firstn_big_endian (k m : nat) (u : Z) :
  firstn k (big_endian (k + m) u) = big_endian k (u / 2 ^ (8 * Z.of_nat m)).
Proof.
  revert u. induction m as [|m IH]; intros u.
  - rewrite Nat.add_0_r, firstn_all2 by (rewrite big_endian_length; lia).
    cbn. rewrite Z.div_1_r. reflexivity.
  - rewrite Nat.add_succ_r. cbn [big_endian].
    rewrite firstn_app, big_endian_length.
    replace (k - (k + m))%nat with 0%nat by lia. cbn [firstn].
    rewrite app_nil_r, IH, Z.div_div by lia.
    do 2 f_equal.
    replace (8 * Z.of_nat (S m)) with (8 + 8 * Z.of_nat m) by lia.
    rewrite Z.pow_add_r by lia. reflexivity.
Qed.

Lemma skipn_big_endian (j m : nat) (u : Z) :
  skipn j (big_endian (j + m) u) = big_endian m u.
Proof.
  revert u. induction m as [|m IH]; intros u.
  - rewrite Nat.add_0_r, skipn_all2 by (rewrite big_endian_length; lia).
    reflexivity.
  - rewrite Nat.add_succ_r. cbn [big_endian].
    rewrite skipn_app, big_endian_length, IH.
    replace (j - (j + m))%nat with 0%nat by lia. reflexivity.
Qed.

Lemma land_mask (a n k : Z) :
  0 <= n -> 0 <= k ->
  Z.land a (Z.ldiff (Z.ones n) (Z.ones k)) = a mod 2 ^ n / 2 ^ k * 2 ^ k.
Proof.
  intros Hn Hk.
  rewrite Z.ldiff_land, Z.land_assoc, <- Z.ldiff_land.
  rewrite Z.land_ones by lia. rewrite Z.ldiff_ones_r by lia.
  rewrite Z.shiftl_mul_pow2, Z.shiftr_div_pow2 by lia. reflexivity.
Qed.

Lemma int_from_bytes_low (data : bytes) (signed : bool) (n : Z) :
  0 <= n <= 8 * Z.of_nat (List.length data) ->
  int_from_bytes data signed mod 2 ^ n = unsigned_from_bytes data mod 2 ^ n.
Proof.
  intros Hn. unfold int_from_bytes.
  destruct (signed && (0 <? 8 * Z.of_nat (List.length data))
            && (2 ^ (8 * Z.of_nat (List.length data) - 1) <=? unsigned_from_bytes data));
    [|reflexivity].
  replace (8 * Z.of_nat (List.length data))
    with ((8 * Z.of_nat (List.length data) - n) + n) by lia.
  rewrite Z.pow_add_r by lia.
  replace (unsigned_from_bytes data - 2 ^ (8 * Z.of_nat (List.length data) - n) * 2 ^ n)
    with (unsigned_from_bytes data + (- 2 ^ (8 * Z.of_nat (List.length data) - n)) * 2 ^ n)
    by lia.
  apply Z.mod_add.
  apply Z.pow_nonzero; lia.
Qed.

(** The three fields [parse] reads, as arithmetic on the buffer. *)
Lemma Position_parse_eq (data : bytes) :
  PositionEncoder.parse data =
  Ok (mkResult
        (mkPosition
           (int_from_bytes (firstn 4 data) true mod 2 ^ 32 / 64 * 64)
           (int_from_bytes (firstn 4 (skipn 3 data)) true mod 2 ^ 28 / 16 * 16)
           (int_from_bytes (firstn 2 (skipn 6 data)) true mod 2 ^ 12))
        8).
Proof.
  unfold PositionEncoder.parse.
  rewrite slice_to by lia. rewrite !slice_between by lia.
  change 0xffffffc0 with (Z.ldiff (Z.ones 32) (Z.ones 6)).
  change 0xffffff0 with (Z.ldiff (Z.ones 28) (Z.ones 4)).
  change 0xfff with (Z.ldiff (Z.ones 12) (Z.ones 0)).
  rewrite !land_mask by lia.
  change (2 ^ 6) with 64. change (2 ^ 4) with 16. change (2 ^ 0) with 1.
  rewrite Z.div_1_r, Z.mul_1_r. reflexivity.
Qed.

(** X24.  Position [parse] returns on every buffer, the empty one
    included, with size 8, and its coordinates are never negative: [x] is
    a multiple of 64 below [2^32], [y] a multiple of 16 below [2^28] and
    [z] is below 4096.  No buffer parses to a negative coordinate or to an
    [x] between 1 and 63. *)
Theorem position_parse_range (data : bytes) :
  exists p,
    PositionEncoder.parse data = Ok (mkResult p 8) /\
    0 <= x p < 2 ^ 32 /\ x p mod 64 = 0 /\
    0 <= y p < 2 ^ 28 /\ y p mod 16 = 0 /\
    0 <= z p < 2 ^ 12.
Proof.
  eexists. split; [apply Position_parse_eq|]. cbn [x y z].
  change (2 ^ 32) with 4294967296. change (2 ^ 28) with 268435456.
  change (2 ^ 12) with 4096.
  repeat split; Z.div_mod_to_equations; lia.
Qed.

(** X25.  Position [parse] reads the first eight bytes only: bytes after
    them change nothing. *)
Theorem position_parse_trailing (data extra : bytes) :
  List.length data = 8%nat ->
  PositionEncoder.parse (data ++ extra) = PositionEncoder.parse data.
Proof.
  intros Hlen. rewrite !Position_parse_eq.
  do 8 (destruct data as [|? data]; [discriminate|]).
  destruct data; [|discriminate].
  cbn [app firstn skipn]. reflexivity.
Qed.

Lemma position_parse_trailing_witness :
  List.length (bytes_of [0; 0; 0; 0x40; 0; 0; 0; 1]) = 8%nat /\
  PositionEncoder.parse (bytes_of [0; 0; 0; 0x40; 0; 0; 0; 1] ++ bytes_of [0xff]) =
  PositionEncoder.parse (bytes_of [0; 0; 0; 0x40; 0; 0; 0; 1]).
Proof.
  split; [reflexivity|].
  apply (@position_parse_trailing (bytes_of [0; 0; 0; 0x40; 0; 0; 0; 1]) (bytes_of [0xff])).
  reflexivity.
Defined.

(** X26.  What comes back from writing then reading a position whose
    fields are not negative and fit 25, 26 and 12 bits: [z] is returned
    as it was, [x] multiplied by 64, and [y] reduced modulo [2^24] and
    multiplied by 16.  The three fields are read where they lie in the
    word, under masks, and not shifted down. *)
Theorem position_roundtrip_scaled (p : Position) :
  0 <= x p < 2 ^ 25 -> 0 <= y p < 2 ^ 26 -> 0 <= z p < 2 ^ 12 ->
  exists data,
    PositionEncoder.serialize p = Ok data /\
    PositionEncoder.parse data =
    Ok (mkResult (mkPosition (64 * x p) (16 * (y p mod 2 ^ 24)) (z p)) 8).
Proof.
  destruct p as [px py pz]. cbn [x y z]. intros Hx Hy Hz.
  change (2 ^ 25) with 33554432 in Hx. change (2 ^ 26) with 67108864 in Hy.
  change (2 ^ 12) with 4096 in Hz.
  set (w := px * 274877906944 + py * 4096 + pz).
  assert (Hw : Z.lor (Z.lor (Z.shiftl px 38) (Z.shiftl py 12)) pz = w).
  { rewrite <- Z.lor_assoc, (Z.lor_comm (Z.shiftl py 12) pz).
    rewrite (lor_shiftl_add (a := pz) py (n := 12)) by (simpl; lia).
    rewrite Z.lor_comm.
    rewrite (lor_shiftl_add (a := pz + py * 2 ^ 12) px (n := 38))
      by (change (2 ^ 12) with 4096; change (2 ^ 38) with 274877906944; lia).
    change (2 ^ 12) with 4096. change (2 ^ 38) with 274877906944.
    unfold w. lia. }
  exists (big_endian 8 w). split.
  - unfold PositionEncoder.serialize. cbn [x y z]. rewrite Hw.
    rewrite int_to_bytes_signed
      by (change (2 ^ (8 * Z.of_nat 8 - 1)) with 9223372036854775808; unfold w; lia).
    change (2 ^ (8 * Z.of_nat 8)) with 18446744073709551616.
    rewrite Z.mod_small by (unfold w; lia). reflexivity.
  - rewrite Position_parse_eq.
    rewrite (firstn_big_endian 4 4 w : firstn 4 (big_endian 8 w) = _).
    rewrite (skipn_big_endian 3 5 w : skipn 3 (big_endian 8 w) = _).
    rewrite (firstn_big_endian 4 1 w : firstn 4 (big_endian 5 w) = _).
    rewrite (skipn_big_endian 6 2 w : skipn 6 (big_endian 8 w) = _).
    rewrite (firstn_big_endian 2 0 w : firstn 2 (big_endian 2 w) = _).
    rewrite !int_from_bytes_low by (rewrite big_endian_length; simpl; lia).
    rewrite !unsigned_from_big_endian.
    change (2 ^ (8 * Z.of_nat 4)) with 4294967296.
    change (2 ^ (8 * Z.of_nat 2)) with 65536.
    change (2 ^ (8 * Z.of_nat 1)) with 256.
    change (2 ^ (8 * Z.of_nat 0)) with 1.
    change (2 ^ 32) with 4294967296. change (2 ^ 28) with 268435456.
    change (2 ^ 24) with 16777216. change (2 ^ 12) with 4096.
    do 2 f_equal. unfold w. f_equal; Z.div_mod_to_equations; lia.
Qed.

Lemma position_roundtrip_scaled_witness :
  0 <= 33554431 < 2 ^ 25 /\ 0 <= 33554431 < 2 ^ 26 /\ 0 <= 2047 < 2 ^ 12 /\
  exists data,
    PositionEncoder.serialize (mkPosition 33554431 33554431 2047) = Ok data /\
    PositionEncoder.parse data =
    Ok (mkResult (mkPosition (64 * 33554431) (16 * (33554431 mod 2 ^ 24)) 2047) 8).
Proof.
  split; [lia|]. split; [lia|]. split; [lia|].
  apply (@position_roundtrip_scaled (mkPosition 33554431 33554431 2047));
    cbn [x y z]; lia.
Defined.

(** ** Floats, angles and JSON text *)



(** X28.  Round trip of the Angle encoder, which passes everything to the
    UnsignedByte encoder: an angle from 0 to 255 is written as one byte and
    read back, whatever follows the byte, with size 1; any other integer is
    refused with the [ValueError] of the UnsignedByte encoder. *)
Theorem angle_roundtrip (v : Z) (extra : bytes) :
  (0 <= v <= 255 ->
   exists data,
     AngleEncoder.serialize v = Ok data /\
     AngleEncoder.parse (data ++ extra) = Ok (mkResult v 1)) /\
  (v < 0 \/ 255 < v ->
   AngleEncoder.serialize v =
   Raise (ValueError "UnsignedByteEncoder: Serialization Error: {value} is not in range [0, 255]")).
Proof.
  split.
  - intros Hv. destruct (@codec_roundtrip UnsignedByte v Hv) as [Hs Hp].
    exists (codec_encoding UnsignedByte v). split; [exact Hs|].
    change (AngleEncoder.parse (codec_encoding UnsignedByte v ++ extra))
      with (codec_parse UnsignedByte (codec_encoding UnsignedByte v ++ extra)).
    rewrite codec_parse_eq in *. unfold codec_encoding in *.
    rewrite firstn_app, big_endian_length. cbn [codec_width Nat.sub firstn] in *.
    rewrite app_nil_r. exact Hp.
  - intros Hv. unfold AngleEncoder.serialize, UnsignedByteEncoder.serialize.
    replace (negb ((0 <=? v) && (v <=? 255))) with true; [reflexivity|].
    symmetry. apply negb_true_iff, andb_false_iff. rewrite !Z.leb_gt. lia.
Qed.

Lemma angle_roundtrip_witness :
  (0 <= 255 <= 255 /\
   exists data,
     AngleEncoder.serialize 255 = Ok data /\
     AngleEncoder.parse (data ++ bytes_of [0x01]) = Ok (mkResult 255 1)) /\
  AngleEncoder.serialize 256 =
   Raise (ValueError "UnsignedByteEncoder: Serialization Error: {value} is not in range [0, 255]").
Proof.
  split.
  - split; [lia|]. apply (proj1 (angle_roundtrip 255 (bytes_of [0x01]))). lia.
  - apply (proj2 (angle_roundtrip 256 [])). lia.
Defined.



(** ** The characters String [parse] can assemble *)

Lemma low_bits_range (c k : Z) : 0 <= k -> 0 <= Z.land c (Z.ones k) < 2 ^ k.
Proof.
  intros Hk. rewrite Z.land_ones by lia. apply Z.mod_pos_bound.
  apply Z.pow_pos_nonneg; lia.
Qed.

Lemma one_byte_char (b : byte) : between 0 0xFFFF (byte_val b) = true.
Proof.
  pose proof (byte_val_range b). unfold between.
  apply andb_true_iff. rewrite !Z.leb_le. lia.
Qed.

Lemma two_byte_char (c0 c1 : Z) :
  between 0 0xFFFF (Z.lor (Z.shiftl (Z.land c0 0x1F) 6) (Z.land c1 0x3F)) = true.
Proof.
  pose proof (@low_bits_range c0 5 ltac:(lia)) as H0.
  pose proof (@low_bits_range c1 6 ltac:(lia)) as H1.
  change (Z.ones 5) with 0x1F in H0. change (Z.ones 6) with 0x3F in H1.
  change (2 ^ 5) with 32 in H0. change (2 ^ 6) with 64 in H1.
  rewrite Z.lor_comm, lor_shiftl_add by (change (2 ^ 6) with 64; lia).
  change (2 ^ 6) with 64. unfold between.
  apply andb_true_iff. rewrite !Z.leb_le. lia.
Qed.

Lemma three_byte_char (c0 c1 c2 : Z) :
  between 0 0xFFFF
    (Z.lor (Z.shiftl (Z.land c0 0x0F) 12)
       (Z.lor (Z.shiftl (Z.land c1 0x3F) 6) (Z.land c2 0x3F))) = true.
Proof.
  pose proof (@low_bits_range c0 4 ltac:(lia)) as H0.
  pose proof (@low_bits_range c1 6 ltac:(lia)) as H1.
  pose proof (@low_bits_range c2 6 ltac:(lia)) as H2.
  change (Z.ones 4) with 0x0F in H0. change (Z.ones 6) with 0x3F in H1, H2.
  change (2 ^ 4) with 16 in H0. change (2 ^ 6) with 64 in H1, H2.
  rewrite (Z.lor_comm (Z.shiftl (Z.land c1 0x3F) 6)),
    lor_shiftl_add by (change (2 ^ 6) with 64; lia).
  change (2 ^ 6) with 64.
  rewrite Z.lor_comm, lor_shiftl_add by (change (2 ^ 12) with 4096; lia).
  change (2 ^ 12) with 4096. unfold between.
  apply andb_true_iff. rewrite !Z.leb_le. lia.
Qed.

Lemma for_c_len_chars (data : bytes) (v : str) (i : Z) :
  0 <= i ->
  forallb (between 0 0xFFFF) v = true ->
  forallb (between 0 0xFFFF) (fst (StringEncoder.for_c_len [1; 2; 3] data v i)) = true.
Proof.
  intros Hi Hv. cbn [StringEncoder.for_c_len].
  rewrite !slice_window by lia.
  change (Z.to_nat 1) with 1%nat. change (Z.to_nat 2) with 2%nat.
  change (Z.to_nat 3) with 3%nat.
  destruct (skipn (Z.to_nat i) data) as [|b0 [|b1 [|b2 t]]];
    cbn [firstn utf8_decode option_map];
    repeat match goal with
           | |- context [if ?b then _ else _] => destruct b
           end; cbn [option_map fst];
    rewrite ?forallb_app, ?Hv; cbn [forallb andb];
    rewrite ?andb_true_r;
    first [ reflexivity | apply one_byte_char | apply two_byte_char
          | apply three_byte_char ].
Qed.

Lemma String_parse_loop_chars (fuel : nat) (data : bytes) (n : Z) :
  forall (v : str) (i : Z) (s : str),
    0 <= i ->
    forallb (between 0 0xFFFF) v = true ->
    StringEncoder.parse_loop fuel data n v i = Ok s ->
    forallb (between 0 0xFFFF) s = true.
Proof.
  induction fuel as [|fuel IH]; intros v i s Hi Hv H; [discriminate|].
  cbn [StringEncoder.parse_loop] in H.
  destruct (Z.of_nat (List.length v) <? n).
  - pose proof (for_c_len_progress data v Hi) as Hc.
    pose proof (for_c_len_chars data v Hi Hv) as Hb.
    destruct (StringEncoder.for_c_len [1; 2; 3] data v i) as [v' i'].
    cbn [fst] in Hb.
    refine (IH v' i' s _ Hb H).
    destruct Hc as [[_ ?] | [[_ ->] | [_ [-> _]]]]; lia.
  - injection H as <-. exact Hv.
Qed.

(** X30.  Every character of a string that String [parse] returns is at
    most U+FFFF.  Only slices of one, two and three bytes are decoded, so
    a character written as four UTF-8 bytes is never read. *)
Theorem string_parse_chars (fuel : nat) (data : bytes)
  (r : EncoderParseResult str) :
  StringEncoder.parse fuel data = Ok r ->
  forallb (between 0 0xFFFF) (value r) = true.
Proof.
  rewrite String_parse_eq.
  destruct (5 <=? run data)%nat; [discriminate|].
  destruct (32767 <? group_value data); [discriminate|].
  destruct (StringEncoder.parse_loop fuel data (group_value data) [] 0)
    as [s|e|] eqn:Hloop; cbn [bind]; try discriminate.
  destruct (utf8_encode s) as [encoded|e|]; cbn [bind]; try discriminate.
  intros H. injection H as <-. cbn [value].
  apply (@String_parse_loop_chars fuel data (group_value data) [] 0 s);
    [lia | reflexivity | exact Hloop].
Qed.

Lemma string_parse_chars_witness :
  StringEncoder.parse 3 (bytes_of [0x02; 0xe2; 0x82; 0xac]) =
    Ok (mkResult [2; 0x20AC] 4) /\
  forallb (between 0 0xFFFF) [2; 0x20AC] = true.
Proof.
  split; [reflexivity|].
  apply (@string_parse_chars 3 (bytes_of [0x02; 0xe2; 0x82; 0xac])
           (mkResult [2; 0x20AC] 4)).
  reflexivity.
Defined.
